(** * dict: an insertion-ordered dictionary (srfrog/dict)

    A shallow embedding of [key.go], [conv.go] and [dict.go], and the
    properties of the container that the specification states.

    The container is sequential here: the mutex of the Go structure is
    not modelled, every method runs as one step.  The goroutine that
    feeds the channel of [Items] is modelled by a step relation at the
    end of the file. *)

From Stdlib Require Import ZArith String Ascii List Lia Bool.
From Stdlib Require Import DecimalString.
From stdpp Require Import base option list gmap.

Local Open Scope string_scope.
Local Open Scope list_scope.
Local Open Scope Z_scope.

(** ** Machine integers *)

Definition MaxInt64 : Z := 2 ^ 63 - 1.

(** An [int64] is held as a [Z]; arithmetic on it wraps around. *)
Definition int64_wrap (z : Z) : Z := (z + 2 ^ 63) mod 2 ^ 64 - 2 ^ 63.

(** [atomic.AddInt64(&x, delta)]: the new value of [x]. *)
Definition AddInt64 (x delta : Z) : Z := int64_wrap (x + delta).

Definition uint64_wrap (z : Z) : Z := z mod 2 ^ 64.

(** ** Results of code that may panic *)

Inductive result (A : Type) : Type :=
| Ok (a : A)
| Panic.
Arguments Ok {A} a.
Arguments Panic {A}.

Definition bind {A B : Type} (r : result A) (f : A -> result B) : result B :=
  match r with
  | Ok a => f a
  | Panic => Panic
  end.

Notation "x <- r ;; k" := (bind r (fun x => k))
  (at level 100, r at next level, right associativity).

(** ** Go values

    The dynamic values an [interface{}] can hold, as far as the package
    looks into them.  [reflect.Kind] is listed in the order of the
    constants of package reflect, which [isKeyType] compares. *)

Inductive Kind : Type :=
| Invalid | Bool | Int | Int8 | Int16 | Int32 | Int64
| Uint | Uint8 | Uint16 | Uint32 | Uint64 | Uintptr
| Float32 | Float64 | Complex64 | Complex128
| Array | Chan | Func | Interface | Map | Pointer | Slice
| String | Struct | UnsafePointer.

Definition Kind_code (k : Kind) : Z :=
  match k with
  | Invalid => 0 | Bool => 1 | Int => 2 | Int8 => 3 | Int16 => 4
  | Int32 => 5 | Int64 => 6 | Uint => 7 | Uint8 => 8 | Uint16 => 9
  | Uint32 => 10 | Uint64 => 11 | Uintptr => 12 | Float32 => 13
  | Float64 => 14 | Complex64 => 15 | Complex128 => 16 | Array => 17
  | Chan => 18 | Func => 19 | Interface => 20 | Map => 21
  | Pointer => 22 | Slice => 23 | String => 24 | Struct => 25
  | UnsafePointer => 26
  end.

Inductive IntKind : Type := KInt | KInt8 | KInt16 | KInt32 | KInt64.
Inductive UintKind : Type := KUint | KUint8 | KUint16 | KUint32 | KUint64.
Inductive FloatKind : Type := KFloat32 | KFloat64.

(** The static key type of a Go map, as [reflect.Type] shows it to
    [isKeyType]: its kind, and whether it implements [Stringer]. *)
Record KeyType : Type := mkKeyType {
  kt_kind : Kind;
  kt_stringer : bool
}.

(** - [VNil] is the nil interface.
    - [VInt], [VUint], [VFloat], [VString] are values of the predeclared
      types; a float is held by the bit pattern of the [float64] it
      widens to.
    - [VNamed str under] is a value of a defined type whose underlying
      value is [under]; [str] is the text its [String] method returns
      when the type implements [Stringer] (the method is taken to be a
      function of the value), and [None] when it does not.
    - [VItem] is a [dict.Item].
    - [VSlice] is an array or a slice ([None] is the nil slice).
    - [VMap] lists the entries of a map in the order the runtime
      enumerates them.
    - [VChan] is a channel, held by the values it delivers before it is
      closed.
    - [VOther] is any other value (struct, pointer, func, ...). *)
#[warnings="-register-all"]
Inductive value : Type :=
| VNil
| VBool (b : bool)
| VInt (k : IntKind) (n : Z)
| VUint (k : UintKind) (n : Z)
| VFloat (k : FloatKind) (bits : Z)
| VString (s : string)
| VNamed (str : option string) (under : value)
| VItem (key val : value)
| VSlice (elems : option (list value))
| VMap (kt : KeyType) (entries : list (value * value))
| VChan (recv : list value)
| VOther (id : Z).

(** [Item] of conv.go. *)
Record Item : Type := mkItem {
  ItemKey : value;
  ItemValue : value
}.

(** [Key] of key.go. *)
Record Key : Type := mkKey {
  ID : Z;
  Name : string
}.

(** ** strconv and hash/fnv *)

(** [strconv.FormatInt(n, 10)] and [strconv.FormatUint(n, 10)]. *)
Definition FormatInt (n : Z) : string := NilZero.string_of_int (Z.to_int n).
Definition FormatUint (n : Z) : string := NilZero.string_of_int (Z.to_int n).

(** 64-bit FNV-1a: [fnv.New64a], [Write], [Sum64]. *)
Definition offset64 : Z := 14695981039346656037.
Definition prime64 : Z := 1099511628211.

Fixpoint fnv64a_write (h : Z) (p : string) : Z :=
  match p with
  | EmptyString => h
  | String.String c p' =>
      fnv64a_write
        (uint64_wrap (Z.lxor h (Z.of_N (N_of_ascii c)) * prime64)) p'
  end.

Definition Sum64a (name : string) : Z := fnv64a_write offset64 name.

(** ** The structure of dict.go *)

(** [Dict]: the two counters, the order sequence and the value index.
    The map is allocated, as [New] does.  A receiver [*Dict] is an
    [option Dict], [None] when nil. *)
Record Dict : Type := mkDict {
  size : Z;
  version : Z;
  keys : list Key;
  values : gmap Z value
}.

(** [&Dict{values: make(map[uint64]interface{})}], what [New] starts from. *)
Definition emptyDict : Dict := mkDict 0 0 [] ∅.

(** Addresses of containers, for the [*Dict] arguments of [Update]. *)
Definition loc : Type := positive.

(** An argument of [Update] and [New].  [Update] first asks whether the
    dynamic type of the argument is [*Dict]; [ADict] is an argument
    that is one (nil or an address), [AVal] any other. *)
Inductive arg : Type :=
| ADict (p : option loc)
| AVal (v : value).

(** A channel of items fed by one goroutine: what is still to be sent,
    and whether the channel is closed. *)
Record chan : Type := mkChan {
  to_send : list Item;
  closed : bool
}.

(** [v != nil] on an interface. *)
Definition is_nil (v : value) : bool :=
  match v with
  | VNil => true
  | _ => false
  end.

(** [m[k]] on a Go map: the zero value, nil, when [k] is missing. *)
Definition index (m : gmap Z value) (k : Z) : value := default VNil (m !! k).

(** [dst[i] = x] for the elements of [src] in turn, from position [i]. *)
Fixpoint fill {A : Type} (dst : list A) (i : nat) (src : list A)
  : result (list A) :=
  match src with
  | [] => Ok dst
  | x :: src' =>
      if (i <? length dst)%nat then fill (<[i:=x]> dst) (S i) src'
      else Panic
  end.

(** The loop of [Del]: the position of the first key with this ID. *)
Fixpoint index_of (id : Z) (ks : list Key) (i : Z) : option Z :=
  match ks with
  | [] => None
  | k :: ks' => if ID k =? id then Some i else index_of id ks' (i + 1)
  end.

(** The value under the defined types around it; its constructor is the
    [reflect.Kind] that [toIterable] switches on. *)
Fixpoint underlying (v : value) : value :=
  match v with
  | VNamed _ u => underlying u
  | _ => v
  end.

Definition isKeyType (t : KeyType) : bool :=
  let kind := Kind_code (kt_kind t) in
  ((Kind_code Bool <? kind) && (kind <? Kind_code Uintptr))
  || (kind =? Kind_code Float32) || (kind =? Kind_code Float64)
  || (kind =? Kind_code String)
  || kt_stringer t.

(** [toIterable]: the items its channel delivers, in order. *)
Definition toIterable (i : value) : list Item :=
  match i with
  | VItem k v => [mkItem k v]
  | VNil => []
  | _ =>
      match underlying i with
      | VMap kt entries =>
          if isKeyType kt then (fun e => mkItem (fst e) (snd e)) <$> entries
          else []
      | VChan xs => (fun x => mkItem VNil x) <$> xs
      | VSlice elems =>
          imap (fun j x => mkItem (VInt KInt (Z.of_nat j)) x) (default [] elems)
      | _ => [mkItem VNil i]
      end
  end.

Definition isValidKeyType (t : value) : bool :=
  match t with
  | VFloat _ _ => true
  | VInt _ _ => true
  | VUint _ _ => true
  | VString _ => true
  | VNamed (Some _) _ => true
  | _ => false
  end.

Definition Version (d : Dict) : Z := version d.

Definition Len (d : Dict) : Z := size d.

Definition IsEmpty (d : option Dict) : bool :=
  match d with
  | None => true
  | Some s => Len s =? 0
  end.

(** ** json.go, the parts that do not call encoding/json *)

(** The type switch of [hasSameKind] on one element: the kind that [k]
    holds after it ([k] itself on nil), nothing in the default case. *)
Definition hasSameKind_case (k : Kind) (x : value) : option Kind :=
  match x with
  | VNil => Some k
  | VBool _ => Some Bool
  | VFloat KFloat64 _ => Some Float64
  | VString _ => Some String
  | _ => None
  end.

(** The loop of [hasSameKind], from the values that [k] and [kseen]
    hold. *)
Fixpoint hasSameKind_loop (k kseen : Kind) (a : list value) : Kind * bool :=
  match a with
  | [] => (kseen, negb (Kind_code kseen =? Kind_code Invalid))
  | x :: a' =>
      match hasSameKind_case k x with
      | None => (Invalid, false)
      | Some k =>
          if Kind_code kseen =? 0 then hasSameKind_loop k k a'
          else if negb (Kind_code k =? Kind_code kseen) then (Invalid, false)
          else hasSameKind_loop k kseen a'
      end
  end.

Definition hasSameKind (a : list value) : Kind * bool :=
  hasSameKind_loop Invalid Invalid a.

(** The branch [case []interface{}] of the loop of [UnmarshalJSON]: what
    is stored for a decoded JSON array [x].  A [VSlice] does not record
    its element type, so the typed slice is held by its elements. *)
Definition UnmarshalJSON_array (x : list value) : value :=
  let '(kind, ok) := hasSameKind x in
  if negb ok then VSlice (Some x) else
  match kind with
  | Bool =>
      VSlice (Some ((fun v => VBool (match v with
                                     | VBool b => b
                                     | _ => false
                                     end)) <$> x))
  | Float64 =>
      VSlice (Some ((fun v => VFloat KFloat64 (match v with
                                               | VFloat KFloat64 f => f
                                               | _ => 0
                                               end)) <$> x))
  | String =>
      VSlice (Some ((fun v => VString (match v with
                                       | VString str => str
                                       | _ => ""
                                       end)) <$> x))
  | _ => VSlice (Some x)
  end.

(** The double quote byte that [MarshalJSON] writes around a key. *)
Definition dquote : string := String.String (ascii_of_nat 34) EmptyString.

(** ** An instance of the library functions

    The package calls [strconv.FormatFloat] and [reflect.DeepEqual];
    below they are parameters.  To run the model on concrete inputs
    they are instantiated by [sample_DeepEqual], which compares two
    values of the model structurally (floats as numbers, so a NaN
    differs from itself and the two zeros are equal), and by
    [sample_FormatFloat], for inputs that hold no float other than
    zero. *)

Definition float_is_nan (bits : Z) : bool :=
  (Z.land (Z.shiftr bits 52) 2047 =? 2047) && negb (Z.land bits (2 ^ 52 - 1) =? 0).

Definition float_eqb (a b : Z) : bool :=
  if float_is_nan a || float_is_nan b then false
  else (a =? b) || ((Z.land a (2 ^ 63 - 1) =? 0) && (Z.land b (2 ^ 63 - 1) =? 0)).

Definition IntKind_eqb (a b : IntKind) : bool :=
  match a, b with
  | KInt, KInt | KInt8, KInt8 | KInt16, KInt16
  | KInt32, KInt32 | KInt64, KInt64 => true
  | _, _ => false
  end.

Definition UintKind_eqb (a b : UintKind) : bool :=
  match a, b with
  | KUint, KUint | KUint8, KUint8 | KUint16, KUint16
  | KUint32, KUint32 | KUint64, KUint64 => true
  | _, _ => false
  end.

Definition FloatKind_eqb (a b : FloatKind) : bool :=
  match a, b with
  | KFloat32, KFloat32 | KFloat64, KFloat64 => true
  | _, _ => false
  end.

Definition option_eqb {A : Type} (eqb : A -> A -> bool) (a b : option A)
  : bool :=
  match a, b with
  | None, None => true
  | Some x, Some y => eqb x y
  | _, _ => false
  end.

Fixpoint sample_DeepEqual (a b : value) {struct a} : bool :=
  let fix all2 (xs ys : list value) {struct xs} : bool :=
    match xs, ys with
    | [], [] => true
    | x :: xs', y :: ys' => sample_DeepEqual x y && all2 xs' ys'
    | _, _ => false
    end in
  let fix entries2 (xs ys : list (value * value)) {struct xs} : bool :=
    match xs, ys with
    | [], [] => true
    | (k1, v1) :: xs', (k2, v2) :: ys' =>
        sample_DeepEqual k1 k2 && sample_DeepEqual v1 v2 && entries2 xs' ys'
    | _, _ => false
    end in
  match a, b with
  | VNil, VNil => true
  | VBool x, VBool y => Bool.eqb x y
  | VInt k1 x, VInt k2 y => IntKind_eqb k1 k2 && (x =? y)
  | VUint k1 x, VUint k2 y => UintKind_eqb k1 k2 && (x =? y)
  | VFloat k1 x, VFloat k2 y => FloatKind_eqb k1 k2 && float_eqb x y
  | VString x, VString y => String.eqb x y
  | VNamed s1 x, VNamed s2 y =>
      option_eqb String.eqb s1 s2 && sample_DeepEqual x y
  | VItem k1 v1, VItem k2 v2 => sample_DeepEqual k1 k2 && sample_DeepEqual v1 v2
  | VSlice None, VSlice None => true
  | VSlice (Some xs), VSlice (Some ys) => all2 xs ys
  | VMap _ xs, VMap _ ys => entries2 xs ys
  | VChan xs, VChan ys => all2 xs ys
  | VOther x, VOther y => x =? y
  | _, _ => false
  end.

Definition sample_FormatFloat (bits : Z) : string :=
  if bits =? 0 then "0" else "NaN".

(** [json.Marshal] on nil, a boolean, an integer, or a string that needs
    no escaping; an error on anything else. *)
Definition sample_Marshal (v : value) : option string :=
  match v with
  | VNil => Some "null"
  | VBool b => Some (if b then "true" else "false")
  | VInt _ n => Some (FormatInt n)
  | VUint _ n => Some (FormatUint n)
  | VString str => Some (dquote ++ str ++ dquote)%string
  | _ => None
  end.

Definition no_mem : loc -> Dict := fun _ => emptyDict.


(** An argument of [Update] that yields one pair without a key: not an
    [Item], not nil, and not a map, a channel, an array or a slice. *)
Definition is_scalar (v : value) : bool :=
  match v with
  | VItem _ _ | VNil => false
  | _ =>
      match underlying v with
      | VMap _ _ | VChan _ | VSlice _ => false
      | _ => true
      end
  end.

Section Container.

(** Two functions of the Go library that the package calls:
    [strconv.FormatFloat(f, 'f', -1, 64)] on the bits of [f], and
    [reflect.DeepEqual]. *)
Variable FormatFloat : Z -> string.
Variable DeepEqual : value -> value -> bool.

(** [json.Marshal] on a stored value: its bytes, or [None] when it
    returns an error. *)
Variable Marshal : value -> option string.

(** [toInt64], [toUint64] and [toFloat64] widen without changing the
    number held. *)
Definition toString (x : value) : string :=
  match x with
  | VFloat _ bits => FormatFloat bits
  | VInt _ n => FormatInt n
  | VUint _ n => FormatUint n
  | VString s => s
  | VNamed (Some s) _ => s
  | _ => ""
  end.

Definition MakeKey (v : value) : option Key :=
  if negb (isValidKeyType v) then None else
  let name := toString v in
  if String.eqb name "" then None else
  Some (mkKey (Sum64a name) name).

(** [Set].  On a nil receiver [New()] makes the container; without
    arguments [New] returns [emptyDict] (see [New_no_args]). The result
    is the container behind the pointer that [Set] returns, which is
    the receiver unless the receiver is nil. *)
Definition Dict_Set (d : option Dict) (key val : value) : Dict :=
  let d := match d with None => emptyDict | Some s => s end in
  match MakeKey key with
  | None => d
  | Some k =>
      match values d !! ID k with
      | Some curr =>
          mkDict (size d)
            (if negb (DeepEqual val curr) then AddInt64 (version d) 1
             else version d)
            (keys d) (<[ID k := val]> (values d))
      | None =>
          mkDict (AddInt64 (size d) 1) (AddInt64 (version d) 1)
            (keys d ++ [k]) (<[ID k := val]> (values d))
      end
  end.

Definition GetKeyID (d : option Dict) (key : value) : Z * bool :=
  match d with
  | None => (0, false)
  | Some s =>
      if IsEmpty d then (0, false) else
      match MakeKey key with
      | None => (0, false)
      | Some k => (ID k, bool_decide (is_Some (values s !! ID k)))
      end
  end.

(** [Get]; [alt] is the variadic slice, [None] when no alternate is
    passed. *)
Definition Get (d : option Dict) (key : value) (alt : option (list value))
  : result value :=
  match d with
  | None => Ok VNil
  | Some s =>
      if IsEmpty d then Ok VNil else
      let '(h, ok) := GetKeyID d key in
      if ok then Ok (index (values s) h)
      else
        match alt with
        | Some a =>
            match a with
            | x :: _ => Ok x
            | [] => Panic
            end
        | None => Ok VNil
        end
  end.

Definition deleteItem (d : Dict) (idx : Z) : result Dict :=
  if IsEmpty (Some d) || (Len d <=? idx) then Ok d else
  if idx <? 0 then Panic else
  match keys d !! Z.to_nat idx with
  | None => Panic
  | Some k =>
      let l := Z.of_nat (length (keys d)) in
      Ok (mkDict (l - 1) (AddInt64 (version d) 1)
            (take (Z.to_nat idx) (keys d) ++ drop (S (Z.to_nat idx)) (keys d))
            (delete (ID k) (values d)))
  end.

Definition Del (d : option Dict) (key : value)
  : result (option Dict * bool) :=
  let '(id, ok) := GetKeyID d key in
  if negb ok then Ok (d, false) else
  match d with
  | None => Panic
  | Some s =>
      let idx := default 0 (index_of id (keys s) 0) in
      match keys s !! Z.to_nat idx with
      | None => Ok (d, false)
      | Some k =>
          if negb (ID k =? id) then Ok (d, false) else
          s' <- deleteItem s idx ;;
          Ok (Some s', true)
      end
  end.

(** [Pop] hands its variadic slice [alt] to [Get] as one argument. *)
Definition Pop (d : option Dict) (key : value) (alt : option (list value))
  : result (option Dict * value) :=
  v <- Get d key (Some [VSlice alt]) ;;
  if negb (is_nil v) then
    r <- Del d key ;;
    Ok (fst r, v)
  else Ok (d, v).

Definition PopItem (d : option Dict) : result (option Dict * option Item) :=
  match d with
  | None => Ok (d, None)
  | Some s =>
      if IsEmpty d then Ok (d, None) else
      let n := length (keys s) in
      if (n =? 0)%nat then Ok (d, None) else
      match keys s !! (n - 1)%nat with
      | None => Panic
      | Some key =>
          let val := index (values s) (ID key) in
          s' <- deleteItem s (Z.of_nat n - 1) ;;
          Ok (Some s', Some (mkItem (VString (Name key)) val))
      end
  end.

Definition Dict_Key (d : option Dict) (key : value) : bool :=
  snd (GetKeyID d key).

Definition Clear (d : option Dict) : option Dict * bool :=
  match d with
  | None => (d, false)
  | Some s =>
      if IsEmpty d then (d, false)
      else (Some (mkDict 0 (AddInt64 (version s) 1) [] ∅), true)
  end.

Definition Keys (d : option Dict) : result (option (list string)) :=
  match d with
  | None => Ok None
  | Some s =>
      if IsEmpty d then Ok None else
      if Len s <? 0 then Panic else
      r <- fill (replicate (Z.to_nat (Len s)) "") 0 (Name <$> keys s) ;;
      Ok (Some r)
  end.

Definition Values (d : option Dict) : result (option (list value)) :=
  match d with
  | None => Ok None
  | Some s =>
      if IsEmpty d then Ok None else
      if Len s <? 0 then Panic else
      r <- fill (replicate (Z.to_nat (Len s)) VNil) 0
             ((fun key => index (values s) (ID key)) <$> keys s) ;;
      Ok (Some r)
  end.

(** The slice [items] that [Items] fills before it starts the
    goroutine. *)
Definition snapshot (s : Dict) : list Item :=
  (fun k => mkItem (VString (Name k)) (index (values s) (ID k))) <$> keys s.

(** [Items]: the channel it returns ([None] would be the nil channel).
    On an empty container the channel is closed before it is returned;
    otherwise the goroutine has [items] to send and then closes. *)
Definition Items (d : option Dict) : option chan :=
  match d with
  | None => Some (mkChan [] true)
  | Some s =>
      if IsEmpty d then Some (mkChan [] true)
      else Some (mkChan (snapshot s) false)
  end.

(** What [for item := range c] receives from a channel that its
    goroutine feeds and closes.  [Items] never returns the nil channel
    (see [Items_not_nil]). *)
Definition range_chan (c : option chan) : list Item :=
  match c with
  | Some c => to_send c
  | None => []
  end.

(** The body of the second loop of [Update]. *)
Definition Update_item (d : Dict) (item : Item) : Dict :=
  let key :=
    if is_nil (ItemKey item) then VInt KInt (Len d) else ItemKey item in
  Dict_Set (Some d) key (ItemValue item).

(** One turn of the outer loop of [Update].  [mem] holds the containers
    other than the receiver, [self] tells whether an address is the
    receiver's: only the receiver is written during the call. *)
Definition Update_arg (mem : loc -> Dict) (self : loc -> bool)
  (d : Dict) (a : arg) : Dict :=
  match a with
  | ADict p =>
      let other :=
        match p with
        | None => None
        | Some l => Some (if self l then d else mem l)
        end in
      fold_left
        (fun d item => Dict_Set (Some d) (ItemKey item) (ItemValue item))
        (range_chan (Items other)) d
  | AVal v => fold_left Update_item (toIterable v) d
  end.

(** [Update]; [vargs] is [None] when the call has no arguments. *)
Definition Update (mem : loc -> Dict) (self : loc -> bool)
  (d : option Dict) (vargs : option (list arg))
  : result (option Dict * bool) :=
  match vargs with
  | None => Ok (d, false)
  | Some args =>
      match d with
      | None => Panic
      | Some s =>
          let ver := Version s in
          let s' := fold_left (Update_arg mem self) args s in
          Ok (Some s', negb (ver =? Version s'))
      end
  end.

(** [New]: the receiver of its [Update] is fresh, no argument is its
    address. *)
Definition New (mem : loc -> Dict) (vargs : option (list arg)) : Dict :=
  match Update mem (fun _ => false) (Some emptyDict) vargs with
  | Ok (Some s, _) => s
  | _ => emptyDict
  end.

(** The loop of [MarshalJSON]: [len] is what [d.Len()] returns, [cnt]
    the counter and [sb] the builder.  [None] is the error of
    [json.Marshal]; the assertion [item.Key.(string)] panics on a key
    that is not a string. *)
Fixpoint MarshalJSON_loop (len : Z) (items : list Item) (cnt : Z)
  (sb : string) : result (option string) :=
  match items with
  | [] => Ok (Some sb)
  | item :: rest =>
      match ItemKey item with
      | VString key =>
          match Marshal (ItemValue item) with
          | None => Ok None
          | Some p =>
              let sb := (sb ++ dquote ++ key ++ dquote ++ ":" ++ p)%string in
              let cnt := cnt + 1 in
              let sb := if cnt <? len then (sb ++ ",")%string else sb in
              MarshalJSON_loop len rest cnt sb
          end
      | _ => Panic
      end
  end.

Definition MarshalJSON (d : option Dict) : result (option string) :=
  match d with
  | None => Ok (Some "null")
  | Some s =>
      if IsEmpty d then Ok (Some "null") else
      r <- MarshalJSON_loop (Len s) (range_chan (Items d)) 0 "{" ;;
      Ok ((fun sb => (sb ++ "}")%string) <$> r)
  end.

(** ** The invariant of the data model *)

(** The order sequence, the size counter and the value index agree: the
    three sizes are equal, no ID occurs twice in the sequence, and the
    IDs of the sequence are the keys of the index. *)
Definition Inv (d : Dict) : Prop :=
  size d = Z.of_nat (length (keys d)) /\
  length (keys d) = base.size (values d) /\
  NoDup (ID <$> keys d) /\
  (forall id, id ∈ (ID <$> keys d) <-> is_Some (values d !! id)).

(** Every key of the order sequence is what [MakeKey] builds from its
    name: the ID is the hash of the name, and the name is not empty. *)
Definition KeysWF (d : Dict) : Prop :=
  Forall (fun k => ID k = Sum64a (Name k) /\ Name k <> "") (keys d).

(** A step of a bulk load: it never shortens the order sequence, and it
    keeps the invariant as long as the sequence fits the size counter. *)
Definition grows {A : Type} (f : Dict -> A -> Dict) : Prop :=
  forall d a,
    (length (keys d) <= length (keys (f d a)))%nat /\
    (Inv d -> Z.of_nat (length (keys (f d a))) <= MaxInt64 -> Inv (f d a)).

(** ** Public operations, as data *)

Inductive op : Type :=
| OpSet (key val : value)
| OpDel (key : value)
| OpPop (key : value) (alt : option (list value))
| OpPopItem
| OpClear
| OpUpdate (mem : loc -> Dict) (self : loc -> bool)
    (vargs : option (list arg)).

(** The receiver after the call. *)
Definition exec (o : op) (d : option Dict) : result (option Dict) :=
  match o with
  | OpSet key val =>
      Ok (match d with
          | None => None
          | Some _ => Some (Dict_Set d key val)
          end)
  | OpDel key => r <- Del d key ;; Ok (fst r)
  | OpPop key alt => r <- Pop d key alt ;; Ok (fst r)
  | OpPopItem => r <- PopItem d ;; Ok (fst r)
  | OpClear => Ok (fst (Clear d))
  | OpUpdate mem self vargs => r <- Update mem self d vargs ;; Ok (fst r)
  end.

(** ** A consumer draining the channel of [Items]

    The container, the channel with the goroutine that feeds it, what
    the consumer has received so far, and whether its [range] loop has
    ended. *)
Record world : Type := mkWorld {
  container : option Dict;
  stream : chan;
  received : list Item;
  finished : bool
}.

(** What the goroutine and the consumer do with the channel: an item
    is handed over, the goroutine closes the channel once it has sent
    everything, the consumer finds the channel closed. *)
Inductive stream_step : world -> world -> Prop :=
| step_deliver d item rest got :
    stream_step (mkWorld d (mkChan (item :: rest) false) got false)
                (mkWorld d (mkChan rest false) (got ++ [item]) false)
| step_close d got :
    stream_step (mkWorld d (mkChan [] false) got false)
                (mkWorld d (mkChan [] true) got false)
| step_end d got :
    stream_step (mkWorld d (mkChan [] true) got false)
                (mkWorld d (mkChan [] true) got true).



(** ** Machine arithmetic *)

Lemma AddInt64_in_range (x : Z) :
  - 2 ^ 63 <= x < MaxInt64 -> AddInt64 x 1 = x + 1.
Proof.
  unfold AddInt64, int64_wrap, MaxInt64. intros Hx.
  rewrite Z.mod_small by lia. lia.
Qed.

(** ** The hash and the key codec *)

Example fnv64a_a : Sum64a "a" = 0xaf63dc4c8601ec8c.
Proof. reflexivity. Qed.

Example fnv64a_foobar : Sum64a "foobar" = 0x85944171f73967e8.
Proof. reflexivity. Qed.

Example FormatInt_negative : FormatInt (-120) = "-120".
Proof. reflexivity. Qed.

Lemma FormatInt_not_empty (n : Z) : FormatInt n <> "".
Proof.
  unfold FormatInt, NilZero.string_of_int.
  destruct (Z.to_int n) as [u | u]; [| discriminate].
  unfold NilZero.string_of_uint. destruct u; discriminate.
Qed.

Lemma MakeKey_Some (v : value) (k : Key) :
  MakeKey v = Some k ->
  isValidKeyType v = true /\ toString v <> "" /\
  k = mkKey (Sum64a (toString v)) (toString v).
Proof.
  unfold MakeKey. destruct (isValidKeyType v); simpl; [| discriminate].
  destruct (String.eqb_spec (toString v) ""); [discriminate |].
  intros [= <-]. auto.
Qed.

Lemma MakeKey_int (ik : IntKind) (n : Z) :
  MakeKey (VInt ik n) = Some (mkKey (Sum64a (FormatInt n)) (FormatInt n)).
Proof.
  unfold MakeKey. simpl.
  destruct (String.eqb_spec (FormatInt n) ""); [| reflexivity].
  by destruct (FormatInt_not_empty n).
Qed.

Lemma MakeKey_same_text (x y : value) (kx ky : Key) :
  MakeKey x = Some kx -> MakeKey y = Some ky ->
  toString x = toString y -> kx = ky.
Proof.
  intros Hx Hy Heq.
  apply MakeKey_Some in Hx as (_ & _ & ->).
  apply MakeKey_Some in Hy as (_ & _ & ->).
  by rewrite Heq.
Qed.

(** ** Reading what was written *)

Lemma Get_present (s : Dict) (key : value) (k : Key) (v : value)
    (alt : option (list value)) :
  IsEmpty (Some s) = false -> MakeKey key = Some k ->
  values s !! ID k = Some v ->
  Get (Some s) key alt = Ok v.
Proof.
  intros Hne Hk Hv. unfold Get, GetKeyID. rewrite Hne, Hk.
  rewrite bool_decide_eq_true_2 by (rewrite Hv; eauto).
  unfold index. by rewrite Hv.
Qed.

Lemma Set_lookup (d : Dict) (key val : value) (k : Key) :
  MakeKey key = Some k ->
  values (Dict_Set (Some d) key val) !! ID k = Some val.
Proof.
  intros Hk. unfold Dict_Set. rewrite Hk.
  destruct (values d !! ID k); simpl; apply lookup_insert_eq.
Qed.

Lemma Inv_present_nonempty (d : Dict) (id : Z) :
  Inv d -> is_Some (values d !! id) -> 0 < size d.
Proof.
  intros (Hsz & Hlen & _ & _) [v Hv].
  assert (base.size (values d) <> 0%nat) as Hn.
  { intros H0. apply map_size_empty_inv in H0.
    rewrite H0 in Hv. by rewrite lookup_empty in Hv. }
  lia.
Qed.

Lemma Set_not_empty (d : Dict) (key val : value) (k : Key) :
  Inv d -> Z.of_nat (length (keys d)) < MaxInt64 ->
  MakeKey key = Some k ->
  IsEmpty (Some (Dict_Set (Some d) key val)) = false.
Proof.
  intros HI Hfit Hk. unfold IsEmpty, Len, Dict_Set. rewrite Hk.
  destruct (values d !! ID k) as [curr |] eqn:Hv; simpl.
  - apply Z.eqb_neq. pose proof (Inv_present_nonempty d (ID k) HI).
    rewrite Hv in H. specialize (H (ltac:(eauto))). lia.
  - destruct HI as (Hsz & _). apply Z.eqb_neq.
    rewrite AddInt64_in_range; unfold MaxInt64 in *; lia.
Qed.

Lemma Get_after_Set (d : Dict) (x y val : value) (k : Key)
    (alt : option (list value)) :
  Inv d -> Z.of_nat (length (keys d)) < MaxInt64 ->
  MakeKey x = Some k -> MakeKey y = Some k ->
  Get (Some (Dict_Set (Some d) x val)) y alt = Ok val.
Proof.
  intros HI Hfit Hx Hy.
  apply Get_present with (k := k); auto.
  - by apply Set_not_empty with (k := k).
  - by apply Set_lookup.
Qed.

(** C1. A value stored under a key that the codec accepts is the value
    read back under that key: on a container that satisfies the
    invariant and whose order sequence leaves room in the size counter,
    [Get] after [Set] returns the value set, whatever alternate is
    passed. *)
Theorem Set_then_Get (d : Dict) (key val : value) (k : Key)
    (alt : option (list value)) :
  Inv d -> Z.of_nat (length (keys d)) < MaxInt64 ->
  MakeKey key = Some k ->
  Get (Some (Dict_Set (Some d) key val)) key alt = Ok val.
Proof.
  intros HI Hfit Hk. by apply Get_after_Set with (k := k).
Qed.

(** C3. Inputs with the same canonical text have the same identity.
    Two accepted inputs whose texts are equal get the same [Key], and a
    value set under one is read under the other; the integer 123 and
    the string "123" are such inputs, with the text "123". *)
Theorem same_text_same_identity (d : Dict) (x y val : value) (kx ky : Key)
    (alt : option (list value)) :
  Inv d -> Z.of_nat (length (keys d)) < MaxInt64 ->
  MakeKey x = Some kx -> MakeKey y = Some ky -> toString x = toString y ->
  kx = ky /\
  Get (Some (Dict_Set (Some d) x val)) y alt = Ok val /\
  MakeKey (VInt KInt 123) = Some (mkKey (Sum64a "123") "123") /\
  MakeKey (VString "123") = Some (mkKey (Sum64a "123") "123") /\
  Get (Some (Dict_Set (Some d) (VInt KInt 123) val)) (VString "123") alt
    = Ok val /\
  Get (Some (Dict_Set (Some d) (VString "123") val)) (VInt KInt 123) alt
    = Ok val.
Proof.
  intros HI Hfit Hx Hy Htext.
  assert (kx = ky) as Heq by (by eapply MakeKey_same_text).
  assert (MakeKey (VInt KInt 123) = Some (mkKey (Sum64a "123") "123"))
    as Hint by reflexivity.
  assert (MakeKey (VString "123") = Some (mkKey (Sum64a "123") "123"))
    as Hstr by reflexivity.
  repeat split; auto.
  - subst ky. by apply Get_after_Set with (k := kx).
  - by eapply Get_after_Set.
  - by eapply Get_after_Set.
Qed.

(** ** The invariant is kept *)

Lemma Inv_empty : Inv emptyDict.
Proof.
  unfold Inv, emptyDict; simpl. repeat split.
  - constructor.
  - intros Hin. by apply elem_of_nil in Hin.
  - intros [v Hv]. by rewrite lookup_empty in Hv.
Qed.

Lemma Set_length_mono (d : Dict) (key val : value) :
  (length (keys d) <= length (keys (Dict_Set (Some d) key val)))%nat.
Proof.
  unfold Dict_Set. destruct (MakeKey key) as [k |]; [| lia].
  destruct (values d !! ID k); simpl; [lia |].
  rewrite length_app. simpl. lia.
Qed.

Lemma Set_Inv (d : Dict) (key val : value) :
  Inv d ->
  Z.of_nat (length (keys (Dict_Set (Some d) key val))) <= MaxInt64 ->
  Inv (Dict_Set (Some d) key val).
Proof.
  intros (Hsz & Hlen & Hnd & Hdom). unfold Dict_Set.
  destruct (MakeKey key) as [k |]; [| done].
  destruct (values d !! ID k) as [curr |] eqn:Hv; simpl; intros Hfit.
  - repeat split; simpl; auto.
    + rewrite map_size_insert_Some; eauto.
    + intros Hin. apply Hdom in Hin.
      rewrite lookup_insert. destruct (decide (ID k = id)); eauto.
    + rewrite lookup_insert. destruct (decide (ID k = id)) as [<- |].
      * intros _. apply Hdom. eauto.
      * apply Hdom.
  - rewrite length_app in Hfit. simpl in Hfit.
    assert (ID k ∉ ID <$> keys d) as Hfresh.
    { intros Hin. apply Hdom in Hin. rewrite Hv in Hin. by destruct Hin. }
    repeat split; simpl.
    + rewrite AddInt64_in_range by (unfold MaxInt64 in *; lia).
      rewrite length_app. simpl. lia.
    + rewrite length_app, map_size_insert_None by done. simpl. lia.
    + rewrite fmap_app. simpl. apply NoDup_app. repeat split; auto.
      * intros x Hx Hx'. apply list_elem_of_singleton in Hx'. by subst.
      * apply NoDup_singleton.
    + rewrite fmap_app. simpl. rewrite elem_of_app, list_elem_of_singleton.
      rewrite lookup_insert. intros [Hin | ->].
      * destruct (decide (ID k = id)); eauto. by apply Hdom.
      * rewrite decide_True by done. eauto.
    + rewrite fmap_app. simpl. rewrite elem_of_app, list_elem_of_singleton.
      rewrite lookup_insert. destruct (decide (ID k = id)) as [<- |].
      * auto.
      * intros Hs. left. by apply Hdom.
Qed.

(** What [deleteItem] does at a position of the order sequence. *)
Lemma deleteItem_at (d : Dict) (n : nat) (k : Key) :
  Inv d -> keys d !! n = Some k ->
  deleteItem d (Z.of_nat n) =
    Ok (mkDict (size d - 1) (AddInt64 (version d) 1)
          (take n (keys d) ++ drop (S n) (keys d))
          (delete (ID k) (values d))).
Proof.
  intros (Hsz & _) Hk. pose proof (lookup_lt_Some _ _ _ Hk) as Hlt.
  unfold deleteItem, IsEmpty, Len.
  replace (size d =? 0) with false by (symmetry; apply Z.eqb_neq; lia).
  replace (size d <=? Z.of_nat n) with false
    by (symmetry; apply Z.leb_gt; lia).
  simpl. replace (Z.of_nat n <? 0) with false
    by (symmetry; apply Z.ltb_ge; lia).
  rewrite Nat2Z.id, Hk. by rewrite Hsz.
Qed.

Lemma remove_at_Inv (d : Dict) (n : nat) (k : Key) (ver : Z) :
  Inv d -> keys d !! n = Some k ->
  Inv (mkDict (size d - 1) ver
         (take n (keys d) ++ drop (S n) (keys d))
         (delete (ID k) (values d))).
Proof.
  intros (Hsz & Hlen & Hnd & Hdom) Hk.
  pose proof (lookup_lt_Some _ _ _ Hk) as Hlt.
  pose proof (take_drop_middle _ _ _ Hk) as Hmid.
  assert (is_Some (values d !! ID k)) as Hpres.
  { apply Hdom. apply list_elem_of_fmap. exists k. split; [done |].
    by eapply list_elem_of_lookup_2. }
  assert (ID <$> keys d =
          (ID <$> take n (keys d)) ++ ID k :: (ID <$> drop (S n) (keys d)))%list
    as Hids.
  { rewrite <- Hmid at 1. by rewrite fmap_app, fmap_cons. }
  rewrite Hids in Hnd.
  apply NoDup_app in Hnd as (Hnd1 & Hdisj & Hnd2).
  apply NoDup_cons in Hnd2 as (Hk2 & Hnd2).
  assert (forall id, id ∈ ID <$> (take n (keys d) ++ drop (S n) (keys d))%list
                     <-> id ∈ (ID <$> keys d) /\ id <> ID k) as Hmem.
  { intros id. rewrite Hids, fmap_app, !elem_of_app, elem_of_cons.
    split.
    - intros [H1 | H2]; split; auto.
      + intros ->. apply (Hdisj _ H1). by left.
      + by intros ->.
    - intros [[H1 | [-> | H2]] Hne]; auto. done. }
  repeat split; simpl.
  - rewrite length_app, length_take, length_drop. lia.
  - rewrite length_app, length_take, length_drop.
    destruct Hpres as [v Hv]. rewrite map_size_delete_Some by eauto. lia.
  - rewrite fmap_app. apply NoDup_app. repeat split; auto.
    intros x H1 H2. apply (Hdisj _ H1). by right.
  - intros Hin. apply Hmem in Hin as [Hin Hne].
    rewrite lookup_delete_ne by done. by apply Hdom.
  - intros Hs. apply Hmem.
    destruct (decide (ID k = id)) as [<- | Hne].
    + rewrite lookup_delete_eq in Hs. by destruct Hs.
    + rewrite lookup_delete_ne in Hs by done. split; [by apply Hdom | done].
Qed.

(** ** Removal *)

Lemma index_of_Some (id : Z) (ks : list Key) (i j : Z) :
  index_of id ks i = Some j ->
  exists n k, j = i + Z.of_nat n /\ ks !! n = Some k /\ ID k = id.
Proof.
  revert i. induction ks as [| k ks IH]; intros i; simpl; [discriminate |].
  destruct (Z.eqb_spec (ID k) id) as [Heq | Hne].
  - intros [= <-]. exists 0%nat, k. simpl. repeat split; auto. lia.
  - intros H. apply IH in H as (n & k' & -> & Hk' & Hid).
    exists (S n), k'. simpl. repeat split; auto. lia.
Qed.

Lemma index_of_None (id : Z) (ks : list Key) (i : Z) :
  index_of id ks i = None -> id ∉ (ID <$> ks).
Proof.
  revert i. induction ks as [| k ks IH]; intros i; simpl.
  - intros _ Hin. by apply elem_of_nil in Hin.
  - destruct (Z.eqb_spec (ID k) id) as [Heq | Hne]; [discriminate |].
    intros H Hin. apply elem_of_cons in Hin as [-> | Hin]; [done |].
    by apply (IH _ H).
Qed.

(** [deleteItem] does not panic at a position of the order sequence,
    whatever the counters hold. *)
Lemma deleteItem_total (d : Dict) (n : nat) (k : Key) :
  keys d !! n = Some k -> exists d', deleteItem d (Z.of_nat n) = Ok d'.
Proof.
  intros Hk. unfold deleteItem.
  destruct (IsEmpty (Some d) || (Len d <=? Z.of_nat n)); [eauto |].
  replace (Z.of_nat n <? 0) with false by (symmetry; apply Z.ltb_ge; lia).
  rewrite Nat2Z.id, Hk. eauto.
Qed.

Lemma Key_true (s : Dict) (key : value) :
  Dict_Key (Some s) key = true ->
  exists k, MakeKey key = Some k /\ IsEmpty (Some s) = false /\
            is_Some (values s !! ID k) /\ GetKeyID (Some s) key = (ID k, true).
Proof.
  unfold Dict_Key, GetKeyID.
  destruct (IsEmpty (Some s)); [discriminate |].
  destruct (MakeKey key) as [k |]; [| discriminate]. simpl.
  intros Hb. exists k. rewrite Hb.
  apply bool_decide_eq_true_1 in Hb. auto.
Qed.

Lemma Del_absent (d : option Dict) (key : value) :
  Dict_Key d key = false -> Del d key = Ok (d, false).
Proof.
  unfold Dict_Key, Del. destruct (GetKeyID d key) as [id ok]. simpl.
  by intros ->.
Qed.

Lemma Del_present (s : Dict) (key : value) :
  Inv s -> Dict_Key (Some s) key = true ->
  exists n k,
    keys s !! n = Some k /\
    Del (Some s) key =
      Ok (Some (mkDict (size s - 1) (AddInt64 (version s) 1)
                  (take n (keys s) ++ drop (S n) (keys s))
                  (delete (ID k) (values s))), true).
Proof.
  intros HI Hkey. pose proof HI as (_ & _ & _ & Hdom).
  apply Key_true in Hkey as (k0 & Hk0 & Hne & Hpres & Hget).
  unfold Del. rewrite Hget. simpl.
  destruct (index_of (ID k0) (keys s) 0) as [j |] eqn:Hidx.
  - apply index_of_Some in Hidx as (n & k & -> & Hk & Hid).
    exists n, k. split; [done |]. simpl.
    replace (Z.to_nat (0 + Z.of_nat n)) with n by lia. rewrite Hk.
    rewrite Hid, Z.eqb_refl. simpl.
    replace (0 + Z.of_nat n) with (Z.of_nat n) by lia.
    rewrite (deleteItem_at s n k HI Hk). simpl. by rewrite Hid.
  - apply index_of_None in Hidx. by apply Hdom in Hpres.
Qed.

Lemma Del_total (s : Dict) (key : value) :
  exists s' b, Del (Some s) key = Ok (Some s', b).
Proof.
  unfold Del. destruct (GetKeyID (Some s) key) as [id ok].
  destruct ok; simpl; [| eauto].
  destruct (index_of id (keys s) 0) as [j |] eqn:Hidx; simpl.
  - apply index_of_Some in Hidx as (n & k & -> & Hk & Hid).
    replace (Z.to_nat (0 + Z.of_nat n)) with n by lia. rewrite Hk.
    destruct (negb (ID k =? id)); [eauto |].
    replace (0 + Z.of_nat n) with (Z.of_nat n) by lia.
    destruct (deleteItem_total s n k Hk) as [d' ->]. simpl. eauto.
  - change (Z.to_nat 0) with 0%nat.
    destruct (keys s !! 0%nat) as [k |] eqn:Hk; [| eauto].
    destruct (negb (ID k =? id)); [eauto |].
    destruct (deleteItem_total s 0 k Hk) as [d' Hd'].
    change (Z.of_nat 0) with 0 in Hd'. rewrite Hd'. simpl. eauto.
Qed.

Lemma Del_Inv (s s' : Dict) (key : value) (b : bool) :
  Inv s -> Del (Some s) key = Ok (Some s', b) -> Inv s'.
Proof.
  intros HI. destruct (Dict_Key (Some s) key) eqn:Hkey.
  - destruct (Del_present s key HI Hkey) as (n & k & Hk & ->).
    intros [= <- _]. by apply remove_at_Inv.
  - rewrite Del_absent by done. by intros [= <- _].
Qed.

(** ** PopItem *)

Lemma list_last_case {A : Type} (l : list A) :
  l = [] \/ exists l' x, l = (l' ++ [x])%list.
Proof.
  induction l as [| x l _] using rev_ind; [by left | right; eauto].
Qed.

Lemma PopItem_nil_or_empty (d : option Dict) :
  IsEmpty d = true -> PopItem d = Ok (d, None).
Proof.
  unfold PopItem. destruct d as [s |]; [| done]. by intros ->.
Qed.

Lemma PopItem_last (s : Dict) (ks : list Key) (k : Key) :
  Inv s -> keys s = (ks ++ [k])%list ->
  PopItem (Some s) =
    Ok (Some (mkDict (size s - 1) (AddInt64 (version s) 1) ks
                (delete (ID k) (values s))),
        Some (mkItem (VString (Name k)) (index (values s) (ID k)))).
Proof.
  intros HI Hks. pose proof HI as (Hsz & _).
  assert (length (keys s) = S (length ks)) as Hlen.
  { rewrite Hks, length_app. simpl. lia. }
  assert (keys s !! length ks = Some k) as Hk.
  { rewrite Hks. by rewrite list_lookup_middle. }
  unfold PopItem, IsEmpty, Len.
  replace (size s =? 0) with false by (symmetry; apply Z.eqb_neq; lia).
  rewrite Hlen. simpl. rewrite Nat.sub_0_r, Hk.
  replace (Z.of_nat (S (length ks)) - 1) with (Z.of_nat (length ks))
    by (rewrite Nat2Z.inj_succ; lia).
  rewrite (deleteItem_at s (length ks) k HI Hk). simpl.
  assert ((take (length ks) (keys s) ++ drop (S (length ks)) (keys s))%list
          = ks) as Hrest.
  { rewrite Hks, take_app_length, drop_ge; [apply app_nil_r |].
    rewrite length_app. simpl. lia. }
  by rewrite Hrest.
Qed.

(** [PopItem] does not panic, whatever the counters hold. *)
Lemma PopItem_total (s : Dict) :
  exists s' item, PopItem (Some s) = Ok (Some s', item).
Proof.
  unfold PopItem. destruct (IsEmpty (Some s)); [eauto |].
  destruct (length (keys s)) as [| n] eqn:Hlen; simpl; [eauto |].
  rewrite Nat.sub_0_r.
  destruct (keys s !! n) as [k |] eqn:Hk.
  - replace (Z.of_nat (S n) - 1) with (Z.of_nat n)
      by (rewrite Nat2Z.inj_succ; lia).
    destruct (deleteItem_total s n k Hk) as [d' ->]. simpl. eauto.
  - apply lookup_ge_None in Hk. lia.
Qed.

(** ** Pop, Clear and Update *)

Lemma Get_one_alt (d : option Dict) (key x : value) :
  exists v, Get d key (Some [x]) = Ok v.
Proof.
  unfold Get. destruct d as [s |]; [| eauto].
  destruct (IsEmpty (Some s)); [eauto |].
  destruct (GetKeyID (Some s) key) as [h ok]. destruct ok; eauto.
Qed.

Lemma Pop_total (s : Dict) (key : value) (alt : option (list value)) :
  exists s' v, Pop (Some s) key alt = Ok (Some s', v).
Proof.
  unfold Pop. destruct (Get_one_alt (Some s) key (VSlice alt)) as [v ->].
  simpl. destruct (negb (is_nil v)); [| eauto].
  destruct (Del_total s key) as (s' & b & ->). simpl. eauto.
Qed.

Lemma Pop_Inv (s s' : Dict) (key v : value) (alt : option (list value)) :
  Inv s -> Pop (Some s) key alt = Ok (Some s', v) -> Inv s'.
Proof.
  intros HI. unfold Pop.
  destruct (Get_one_alt (Some s) key (VSlice alt)) as [v' ->]. simpl.
  destruct (negb (is_nil v')).
  - destruct (Del_total s key) as (s1 & b & Hdel). rewrite Hdel. simpl.
    intros [= <- _]. by eapply Del_Inv.
  - by intros [= <- _].
Qed.

Lemma Clear_Inv (s s' : Dict) (b : bool) :
  Inv s -> Clear (Some s) = (Some s', b) -> Inv s'.
Proof.
  intros HI. unfold Clear. destruct (IsEmpty (Some s)).
  - by intros [= <- _].
  - intros [= <- _]. destruct Inv_empty as (H1 & H2 & H3 & H4).
    repeat split; auto; apply H4.
Qed.

Lemma grows_fold {A : Type} (f : Dict -> A -> Dict) :
  grows f -> grows (fun d (l : list A) => fold_left f l d).
Proof.
  intros Hf d l. revert d. induction l as [| a l IH]; intros d; simpl.
  - split; [lia | auto].
  - destruct (Hf d a) as [Hle Hinv]. destruct (IH (f d a)) as [Hle' Hinv'].
    split; [lia |]. intros HI Hfit. apply Hinv'; [| done].
    apply Hinv; [done | lia].
Qed.

Lemma grows_Set_item :
  grows (fun d item => Dict_Set (Some d) (ItemKey item) (ItemValue item)).
Proof.
  intros d item. split; [apply Set_length_mono | apply Set_Inv].
Qed.

Lemma grows_Update_item : grows Update_item.
Proof.
  intros d item. unfold Update_item.
  split; [apply Set_length_mono | apply Set_Inv].
Qed.

Lemma grows_Update_arg (mem : loc -> Dict) (self : loc -> bool) :
  grows (Update_arg mem self).
Proof.
  intros d a. destruct a as [p | v]; simpl.
  - apply (grows_fold _ grows_Set_item).
  - apply (grows_fold _ grows_Update_item).
Qed.

Lemma Update_Inv (mem : loc -> Dict) (self : loc -> bool) (s s' : Dict)
    (vargs : option (list arg)) (b : bool) :
  Inv s -> Update mem self (Some s) vargs = Ok (Some s', b) ->
  Z.of_nat (length (keys s')) <= MaxInt64 -> Inv s'.
Proof.
  intros HI. unfold Update. destruct vargs as [args |].
  - intros [= <- _] Hfit.
    by apply (grows_fold _ (grows_Update_arg mem self)).
  - by intros [= <- _].
Qed.

(** A container as [New] builds it satisfies the invariant. *)
Lemma New_Inv (mem : loc -> Dict) (vargs : option (list arg)) :
  Z.of_nat (length (keys (New mem vargs))) <= MaxInt64 ->
  Inv (New mem vargs).
Proof.
  unfold New, Update. destruct vargs as [args |]; simpl.
  - by apply (grows_fold _ (grows_Update_arg mem (fun _ => false))),
             Inv_empty.
  - intros _. apply Inv_empty.
Qed.

Lemma exec_total (o : op) (s : Dict) :
  exists s', exec o (Some s) = Ok (Some s').
Proof.
  destruct o as [key val | key | key alt | | | mem self vargs]; unfold exec.
  - eauto.
  - destruct (Del_total s key) as (s' & b & ->). simpl. eauto.
  - destruct (Pop_total s key alt) as (s' & v & ->). simpl. eauto.
  - destruct (PopItem_total s) as (s' & item & ->). simpl. eauto.
  - unfold Clear. destruct (IsEmpty (Some s)); simpl; eauto.
  - unfold Update. destruct vargs; simpl; eauto.
Qed.

(** C7. Every public operation keeps the invariant of the data model.
    On a container that satisfies it, [Set], [Del], [Pop], [PopItem],
    [Clear] and [Update] return without panic, and the container
    satisfies the invariant again: the length of the order sequence,
    the size counter and the number of entries of the value index are
    equal, no ID occurs twice in the sequence, and the IDs of the
    sequence are the keys of the index.  The size counter is an int64:
    the order sequence is taken to fit it after the call. *)
Theorem public_operations_keep_Inv (o : op) (s : Dict) :
  Inv s ->
  exists s', exec o (Some s) = Ok (Some s') /\
             (Z.of_nat (length (keys s')) <= MaxInt64 -> Inv s').
Proof.
  intros HI. destruct (exec_total o s) as [s' Hex]. exists s'.
  split; [done |]. intros Hfit.
  destruct o as [key val | key | key alt | | | mem self vargs];
    unfold exec in Hex.
  - injection Hex as <-. by apply Set_Inv.
  - destruct (Del_total s key) as (s1 & b & Hdel). rewrite Hdel in Hex.
    simpl in Hex. injection Hex as <-. by eapply Del_Inv.
  - destruct (Pop_total s key alt) as (s1 & v & Hpop). rewrite Hpop in Hex.
    simpl in Hex. injection Hex as <-. by eapply Pop_Inv.
  - destruct (list_last_case (keys s)) as [Hks | (ks0 & k0 & Hks)].
    + pose proof HI as (Hsz & _). rewrite Hks in Hsz. simpl in Hsz.
      rewrite PopItem_nil_or_empty in Hex
        by (unfold IsEmpty, Len; apply Z.eqb_eq; lia).
      simpl in Hex. by injection Hex as <-.
    + rewrite (PopItem_last s ks0 k0 HI Hks) in Hex. simpl in Hex.
      injection Hex as <-.
      assert (keys s !! length ks0 = Some k0) as Hk.
      { rewrite Hks. by rewrite list_lookup_middle. }
      pose proof (remove_at_Inv s (length ks0) k0
                    (AddInt64 (version s) 1) HI Hk) as HI'.
      replace (take (length ks0) (keys s) ++ drop (S (length ks0)) (keys s))%list
        with ks0 in HI'; [done |].
      rewrite Hks, take_app_length, drop_ge; [by rewrite app_nil_r |].
      rewrite length_app. simpl. lia.
  - destruct (Clear (Some s)) as [d' b] eqn:Hcl. simpl in Hex.
    injection Hex as ->. by eapply Clear_Inv.
  - destruct (Update mem self (Some s) vargs) as [[d' b] |] eqn:Hup;
      [| discriminate].
    simpl in Hex. injection Hex as ->. by eapply Update_Inv.
Qed.

(** ** The version counter *)

Lemma Version_Set (s : Dict) (key val : value) (k : Key) :
  - 2 ^ 63 <= version s < MaxInt64 -> MakeKey key = Some k ->
  Version (Dict_Set (Some s) key val) =
    match values s !! ID k with
    | None => Version s + 1
    | Some curr => if DeepEqual val curr then Version s else Version s + 1
    end.
Proof.
  intros Hv Hk. unfold Dict_Set, Version. rewrite Hk.
  destruct (values s !! ID k) as [curr |]; simpl.
  - destruct (DeepEqual val curr); simpl; [done |].
    by apply AddInt64_in_range.
  - by apply AddInt64_in_range.
Qed.

(** C2. The version counter moves exactly when the contents change.  On
    a container that satisfies the invariant and whose version counter
    is below the largest int64: [Set] of a new identity, [Set] of a
    value that [reflect.DeepEqual] tells apart from the stored one, a
    removal by [Del] or [PopItem], and [Clear] of a container that is
    not empty each add one to [Version], [Clear] whatever the number of
    entries; [Set] of a value that [reflect.DeepEqual] finds equal to
    the stored one leaves [Version] as it is. *)
Theorem Version_changes (s : Dict) (key val : value) (k : Key) :
  Inv s -> - 2 ^ 63 <= version s < MaxInt64 -> MakeKey key = Some k ->
  Version (Dict_Set (Some s) key val) =
    match values s !! ID k with
    | None => Version s + 1
    | Some curr => if DeepEqual val curr then Version s else Version s + 1
    end /\
  (if Dict_Key (Some s) key
   then exists s', Del (Some s) key = Ok (Some s', true) /\
                   Version s' = Version s + 1
   else Del (Some s) key = Ok (Some s, false)) /\
  (if IsEmpty (Some s)
   then PopItem (Some s) = Ok (Some s, None)
   else exists s' item, PopItem (Some s) = Ok (Some s', Some item) /\
                        Version s' = Version s + 1) /\
  (if IsEmpty (Some s)
   then Clear (Some s) = (Some s, false)
   else exists s', Clear (Some s) = (Some s', true) /\ keys s' = [] /\
                   Version s' = Version s + 1).
Proof.
  intros HI Hv Hk.
  split; [by apply Version_Set |].
  split; [| split].
  - destruct (Dict_Key (Some s) key) eqn:Hkey.
    + destruct (Del_present s key HI Hkey) as (n & k' & _ & ->).
      eexists. split; [reflexivity |]. unfold Version. simpl.
      by apply AddInt64_in_range.
    + by apply Del_absent.
  - destruct (IsEmpty (Some s)) eqn:Hemp.
    + by apply PopItem_nil_or_empty.
    + destruct (list_last_case (keys s)) as [Hks | (ks & k' & Hks)].
      * pose proof HI as (Hsz & _). rewrite Hks in Hsz. simpl in Hsz.
        unfold IsEmpty, Len in Hemp. apply Z.eqb_neq in Hemp. lia.
      * rewrite (PopItem_last s ks k' HI Hks).
        do 2 eexists. split; [reflexivity |]. unfold Version. simpl.
        by apply AddInt64_in_range.
  - unfold Clear. destruct (IsEmpty (Some s)); [done |].
    eexists. split; [reflexivity |]. split; [done |].
    unfold Version. simpl. by apply AddInt64_in_range.
Qed.

(** ** Get and Pop *)

Lemma Get_empty (d : option Dict) (key : value) (alt : option (list value)) :
  IsEmpty d = true -> Get d key alt = Ok VNil.
Proof.
  unfold Get. destruct d as [s |]; [| done]. by intros ->.
Qed.

(** On a container that is not empty [Get] returns the stored value,
    else the first alternate, else nil. *)
Lemma Get_not_empty (s : Dict) (key : value) (alt : option (list value)) :
  IsEmpty (Some s) = false ->
  Get (Some s) key alt =
    match MakeKey key ≫= (fun k => values s !! ID k) with
    | Some v => Ok v
    | None =>
        match alt with
        | Some (x :: _) => Ok x
        | Some [] => Panic
        | None => Ok VNil
        end
    end.
Proof.
  intros Hne. unfold Get, GetKeyID. rewrite Hne.
  destruct (MakeKey key) as [k |]; simpl; [| done].
  destruct (values s !! ID k) as [v |] eqn:Hv.
  - rewrite bool_decide_eq_true_2 by eauto. unfold index. by rewrite Hv.
  - rewrite bool_decide_eq_false_2; [done |]. by intros [v Hv'].
Qed.

Lemma Pop_absent (d : option Dict) (key : value) (alt : option (list value)) :
  Dict_Key d key = false -> exists v, Pop d key alt = Ok (d, v).
Proof.
  intros Hkey. unfold Pop.
  destruct (Get_one_alt d key (VSlice alt)) as [v ->]. simpl.
  destruct (negb (is_nil v)); [| eauto].
  rewrite Del_absent by done. simpl. eauto.
Qed.

(** [Pop] of a key whose stored value is not nil returns that value and
    removes the entry, as [Get] followed by [Del] does. *)
Lemma Pop_present (s : Dict) (key : value) (k : Key) (v : value)
    (alt : option (list value)) :
  IsEmpty (Some s) = false -> MakeKey key = Some k ->
  values s !! ID k = Some v -> is_nil v = false ->
  Get (Some s) key alt = Ok v /\
  Pop (Some s) key alt = (r <- Del (Some s) key ;; Ok (fst r, v)).
Proof.
  intros Hne Hk Hv Hnil. split; [by eapply Get_present |].
  unfold Pop. rewrite (Get_present s key k v _ Hne Hk Hv). simpl.
  by rewrite Hnil.
Qed.

(** C6. On an empty container, and on the nil container, [Get] returns
    nil although an alternate is passed: the first test of [Get]
    returns before the alternate is looked at.  The comment of [Get]
    promises the alternate when no item is found. *)
Theorem Get_empty_ignores_alt :
  Get (Some emptyDict) (VString "k") (Some [VString "default"]) = Ok VNil /\
  Get None (VString "k") (Some [VString "default"]) = Ok VNil.
Proof. split; reflexivity. Qed.

(** C5. [Pop] does not return what [Get] returns for a key that is
    absent from a container that is not empty: it hands its variadic
    slice to [Get] as one alternate, so it returns that slice, the nil
    slice when no alternate is passed.  And a key whose stored value is
    nil is not removed. *)
Theorem Pop_returns_alt_slice :
  let d := Dict_Set (Some emptyDict) (VString "a") (VInt KInt 1) in
  let n := Dict_Set (Some emptyDict) (VString "a") VNil in
  Get (Some d) (VString "b") None = Ok VNil /\
  Pop (Some d) (VString "b") None = Ok (Some d, VSlice None) /\
  Get (Some d) (VString "b") (Some [VString "x"]) = Ok (VString "x") /\
  Pop (Some d) (VString "b") (Some [VString "x"])
    = Ok (Some d, VSlice (Some [VString "x"])) /\
  Dict_Key (Some n) (VString "a") = true /\
  Pop (Some n) (VString "a") None = Ok (Some n, VNil).
Proof. repeat split; reflexivity. Qed.


(** ** Positional keys *)

Lemma Update_arg_scalar (mem : loc -> Dict) (self : loc -> bool)
    (s : Dict) (v : value) :
  is_scalar v = true ->
  Update_arg mem self s (AVal v) = Dict_Set (Some s) (VInt KInt (Len s)) v.
Proof.
  intros Hs.
  assert (toIterable v = [mkItem VNil v]) as Hit.
  { destruct v; try discriminate; simpl in *; try reflexivity;
      destruct (underlying v); try discriminate; reflexivity. }
  unfold Update_arg. by rewrite Hit.
Qed.

Lemma Update_arg_chan (mem : loc -> Dict) (self : loc -> bool)
    (s : Dict) (xs : list value) :
  Update_arg mem self s (AVal (VChan xs)) =
    fold_left (fun d x => Dict_Set (Some d) (VInt KInt (Len d)) x) xs s.
Proof.
  unfold Update_arg. simpl. revert s.
  induction xs as [| x xs IH]; intros s; simpl; [done |]. by rewrite IH.
Qed.

(** C8. Positional keys.  A container built from the sequence [1,2,3]
    has the keys "0", "1", "2" and the values 1, 2, 3, in that order.
    A pair that comes without a key, from a scalar argument or from a
    channel, is set under the integer that [Len] returns when the pair
    is inserted, whose text is its decimal form: a container built from
    the scalars 1, 2, 3 and then updated with the scalar 4 and the
    stream 5, 6 has the keys "0" to "5". *)
Theorem positional_keys (mem : loc -> Dict) (self : loc -> bool)
    (s : Dict) (v : value) (xs : list value) :
  is_scalar v = true ->
  let d := New mem (Some [AVal (VSlice
                 (Some [VInt KInt 1; VInt KInt 2; VInt KInt 3]))]) in
  Keys (Some d) = Ok (Some ["0"; "1"; "2"]) /\
  Values (Some d) = Ok (Some [VInt KInt 1; VInt KInt 2; VInt KInt 3]) /\
  Update_arg mem self s (AVal v) = Dict_Set (Some s) (VInt KInt (Len s)) v /\
  Update_arg mem self s (AVal (VChan xs)) =
    fold_left (fun d x => Dict_Set (Some d) (VInt KInt (Len d)) x) xs s /\
  MakeKey (VInt KInt (Len s)) =
    Some (mkKey (Sum64a (FormatInt (Len s))) (FormatInt (Len s))) /\
  exists d',
    Update mem self
      (Some (New mem (Some [AVal (VInt KInt 1); AVal (VInt KInt 2);
                            AVal (VInt KInt 3)])))
      (Some [AVal (VInt KInt 4); AVal (VChan [VInt KInt 5; VInt KInt 6])])
      = Ok (Some d', true) /\
    Keys (Some d') = Ok (Some ["0"; "1"; "2"; "3"; "4"; "5"]) /\
    Values (Some d') =
      Ok (Some [VInt KInt 1; VInt KInt 2; VInt KInt 3;
                VInt KInt 4; VInt KInt 5; VInt KInt 6]).
Proof.
  intros Hs d. repeat split.
  - by apply Update_arg_scalar.
  - apply Update_arg_chan.
  - apply MakeKey_int.
  - eexists. repeat split.
Qed.

(** ** Keys, Values and Items *)

Lemma fill_replicate {A : Type} (z : A) (src filled : list A) :
  fill (filled ++ replicate (length src) z) (length filled) src
    = Ok (filled ++ src)%list.
Proof.
  revert filled. induction src as [| x src IH]; intros filled; simpl.
  - by rewrite app_nil_r.
  - replace (length filled <? length (filled ++ z :: replicate (length src) z))%nat
      with true
      by (symmetry; apply Nat.ltb_lt; rewrite length_app; simpl; lia).
    replace (<[length filled:=x]> (filled ++ z :: replicate (length src) z))
      with ((filled ++ [x]) ++ replicate (length src) z)%list.
    + replace (S (length filled)) with (length (filled ++ [x]))
        by (rewrite length_app; simpl; lia).
      rewrite IH. by rewrite <- app_assoc.
    + rewrite insert_app_r_alt by lia. rewrite Nat.sub_diag. simpl.
      by rewrite <- app_assoc.
Qed.

Lemma fill_all {A : Type} (z : A) (src : list A) (n : Z) :
  n = Z.of_nat (length src) ->
  fill (replicate (Z.to_nat n) z) 0 src = Ok src.
Proof.
  intros ->. rewrite Nat2Z.id. apply (fill_replicate z src []).
Qed.

Lemma Keys_Inv (s : Dict) :
  Inv s ->
  Keys (Some s) =
    Ok (if IsEmpty (Some s) then None else Some (Name <$> keys s)).
Proof.
  intros (Hsz & _). unfold Keys. destruct (IsEmpty (Some s)); [done |].
  unfold Len. replace (size s <? 0) with false
    by (symmetry; apply Z.ltb_ge; lia).
  rewrite fill_all; [done |]. by rewrite length_fmap.
Qed.

Lemma Values_Inv (s : Dict) :
  Inv s ->
  Values (Some s) =
    Ok (if IsEmpty (Some s) then None
        else Some ((fun k => index (values s) (ID k)) <$> keys s)).
Proof.
  intros (Hsz & _). unfold Values. destruct (IsEmpty (Some s)); [done |].
  unfold Len. replace (size s <? 0) with false
    by (symmetry; apply Z.ltb_ge; lia).
  rewrite fill_all; [done |]. by rewrite length_fmap.
Qed.

Lemma Items_not_nil (d : option Dict) : exists c, Items d = Some c.
Proof.
  unfold Items. destruct d as [s |]; [| eauto].
  destruct (IsEmpty (Some s)); eauto.
Qed.

Lemma Items_Inv (s : Dict) (c : chan) :
  Inv s -> Items (Some s) = Some c ->
  to_send c = snapshot s /\ (closed c = true -> to_send c = []).
Proof.
  intros (Hsz & _). unfold Items, IsEmpty, Len.
  destruct (Z.eqb_spec (size s) 0) as [H0 | Hne]; intros [= <-]; simpl.
  - split; [| done]. unfold snapshot.
    destruct (keys s); [done | simpl in Hsz; lia].
  - split; [done | discriminate].
Qed.



(** C10. On an empty container, and on the nil container, [Items]
    returns a channel that is not nil, already closed and without
    items: a [range] over it receives nothing and ends at once.  The
    comment of [Items] says that nil is returned. *)
Theorem Items_empty_is_closed (d : option Dict) :
  IsEmpty d = true ->
  Items d = Some (mkChan [] true) /\
  range_chan (Items d) = [] /\
  stream_step (mkWorld d (mkChan [] true) [] false)
              (mkWorld d (mkChan [] true) [] true).
Proof.
  intros Hemp.
  assert (Items d = Some (mkChan [] true)) as Hit.
  { unfold Items. destruct d as [s |]; [| done]. by rewrite Hemp. }
  rewrite Hit. repeat split. apply step_end.
Qed.

(** ** Keys are made by the codec *)

Lemma MakeKey_name (k : Key) :
  ID k = Sum64a (Name k) -> Name k <> "" ->
  MakeKey (VString (Name k)) = Some k.
Proof.
  intros Hid Hne. unfold MakeKey. simpl.
  destruct (String.eqb_spec (Name k) ""); [done |].
  destruct k as [id name]. simpl in *. by subst.
Qed.

Lemma MakeKey_wf (v : value) (k : Key) :
  MakeKey v = Some k -> ID k = Sum64a (Name k) /\ Name k <> "".
Proof.
  intros H. apply MakeKey_Some in H as (_ & Hne & ->). by simpl.
Qed.

Lemma fold_left_keeps {A B : Type} (P : B -> Prop) (f : B -> A -> B) :
  (forall b a, P b -> P (f b a)) ->
  forall l b, P b -> P (fold_left f l b).
Proof.
  intros Hf l. induction l as [| a l IH]; intros b Hb; simpl; auto.
Qed.

Lemma Set_KeysWF (d : Dict) (key val : value) :
  KeysWF d -> KeysWF (Dict_Set (Some d) key val).
Proof.
  intros Hwf. unfold Dict_Set.
  destruct (MakeKey key) as [k |] eqn:Hk; [| done].
  destruct (values d !! ID k); [done |].
  unfold KeysWF. simpl. apply Forall_app. split; [done |].
  apply Forall_singleton. by eapply MakeKey_wf.
Qed.

(** [deleteItem] returns the container as it is, or without one
    position of its order sequence. *)
Lemma deleteItem_cases (d d' : Dict) (idx : Z) :
  deleteItem d idx = Ok d' ->
  d' = d \/
  exists n k, keys d !! n = Some k /\
    d' = mkDict (Z.of_nat (length (keys d)) - 1) (AddInt64 (version d) 1)
           (take n (keys d) ++ drop (S n) (keys d))
           (delete (ID k) (values d)).
Proof.
  unfold deleteItem.
  destruct (IsEmpty (Some d) || (Len d <=? idx)); [intros [= <-]; by left |].
  destruct (idx <? 0); [discriminate |].
  destruct (keys d !! Z.to_nat idx) as [k |] eqn:Hk; [| discriminate].
  intros [= <-]. right. eauto.
Qed.

Lemma Del_cases (s s' : Dict) (key : value) (b : bool) :
  Del (Some s) key = Ok (Some s', b) ->
  (s' = s /\ b = false) \/ exists idx, deleteItem s idx = Ok s' /\ b = true.
Proof.
  unfold Del. destruct (GetKeyID (Some s) key) as [id ok].
  destruct ok; simpl; [| intros [= <- <-]; by left].
  destruct (keys s !! Z.to_nat (default 0 (index_of id (keys s) 0)));
    [| intros [= <- <-]; by left].
  destruct (negb (ID k =? id)); [intros [= <- <-]; by left |].
  destruct (deleteItem s _) as [d' |] eqn:Hdel; simpl; [| discriminate].
  intros [= <- <-]. right. eauto.
Qed.

Lemma PopItem_cases (s s' : Dict) (item : option Item) :
  PopItem (Some s) = Ok (Some s', item) ->
  s' = s \/ exists idx, deleteItem s idx = Ok s'.
Proof.
  unfold PopItem. destruct (IsEmpty (Some s)); [intros [= <- _]; by left |].
  destruct (length (keys s) =? 0)%nat; [intros [= <- _]; by left |].
  destruct (keys s !! (length (keys s) - 1)%nat); [| discriminate].
  destruct (deleteItem s _) as [d' |] eqn:Hdel; simpl; [| discriminate].
  intros [= <- _]. right. eauto.
Qed.

Lemma Pop_cases (s s' : Dict) (key v : value) (alt : option (list value)) :
  Pop (Some s) key alt = Ok (Some s', v) ->
  s' = s \/ exists idx, deleteItem s idx = Ok s'.
Proof.
  unfold Pop. destruct (Get (Some s) key _) as [v' |]; simpl; [| discriminate].
  destruct (negb (is_nil v')); [| intros [= <- _]; by left].
  destruct (Del (Some s) key) as [[d' b] |] eqn:Hdel; simpl; [| discriminate].
  intros [= -> _]. apply Del_cases in Hdel as [[-> _] | (idx & H & _)]; eauto.
Qed.

Lemma deleteItem_KeysWF (d d' : Dict) (idx : Z) :
  deleteItem d idx = Ok d' -> KeysWF d -> KeysWF d'.
Proof.
  intros Hdel Hwf.
  apply deleteItem_cases in Hdel as [-> | (n & k & Hk & ->)]; [done |].
  unfold KeysWF in *. simpl. apply Forall_app.
  split; [by apply Forall_take | by apply Forall_drop].
Qed.

Lemma Update_arg_KeysWF (mem : loc -> Dict) (self : loc -> bool)
    (d : Dict) (a : arg) :
  KeysWF d -> KeysWF (Update_arg mem self d a).
Proof.
  intros Hwf. destruct a as [p | v]; simpl.
  - apply (fold_left_keeps KeysWF); [| done].
    intros b item. apply Set_KeysWF.
  - apply (fold_left_keeps KeysWF); [| done].
    intros b item. apply Set_KeysWF.
Qed.

(** X1. In every container that the public operations reach, a key of
    the order sequence is the key that [MakeKey] builds from its name:
    [Set], [Del], [Pop], [PopItem], [Clear] and [Update] keep this. *)
Theorem public_operations_keep_KeysWF (o : op) (s s' : Dict) :
  KeysWF s -> exec o (Some s) = Ok (Some s') -> KeysWF s'.
Proof.
  intros Hwf Hex.
  destruct o as [key val | key | key alt | | | mem self vargs];
    unfold exec in Hex.
  - injection Hex as <-. by apply Set_KeysWF.
  - destruct (Del (Some s) key) as [[d' b] |] eqn:Hdel; [| discriminate].
    simpl in Hex. injection Hex as ->.
    apply Del_cases in Hdel as [[-> _] | (idx & H & _)]; [done |].
    by eapply deleteItem_KeysWF.
  - destruct (Pop (Some s) key alt) as [[d' v] |] eqn:Hpop; [| discriminate].
    simpl in Hex. injection Hex as ->.
    apply Pop_cases in Hpop as [-> | (idx & H)]; [done |].
    by eapply deleteItem_KeysWF.
  - destruct (PopItem (Some s)) as [[d' item] |] eqn:Hpop; [| discriminate].
    simpl in Hex. injection Hex as ->.
    apply PopItem_cases in Hpop as [-> | (idx & H)]; [done |].
    by eapply deleteItem_KeysWF.
  - unfold Clear in Hex. destruct (IsEmpty (Some s)); simpl in Hex;
      injection Hex as <-; [done | constructor].
  - unfold Update in Hex. destruct vargs as [args |]; simpl in Hex;
      injection Hex as <-; [| done].
    apply (fold_left_keeps KeysWF); [| done].
    intros b a. apply Update_arg_KeysWF.
Qed.

Lemma New_KeysWF (mem : loc -> Dict) (vargs : option (list arg)) :
  KeysWF (New mem vargs).
Proof.
  unfold New, Update. destruct vargs as [args |]; simpl; [| constructor].
  apply (fold_left_keeps KeysWF); [| constructor].
  intros b a. apply Update_arg_KeysWF.
Qed.

(** X2. [Keys] and [Values] are aligned with [Get].  On a container that
    is not empty and satisfies the two invariants, [Keys] and [Values]
    return sequences as long as [Len]; every name that [Keys] lists is a
    member by [Key], and [Get] under that name returns the value at the
    same position of [Values]. *)
Theorem Keys_Values_Get (s : Dict) :
  Inv s -> KeysWF s -> IsEmpty (Some s) = false ->
  exists names vals,
    Keys (Some s) = Ok (Some names) /\
    Values (Some s) = Ok (Some vals) /\
    Z.of_nat (length names) = Len s /\
    length vals = length names /\
    forall i name alt,
      names !! i = Some name ->
      Dict_Key (Some s) (VString name) = true /\
      exists val, vals !! i = Some val /\
                  Get (Some s) (VString name) alt = Ok val.
Proof.
  intros HI Hwf Hne. pose proof HI as (Hsz & _ & _ & Hdom).
  exists (Name <$> keys s), ((fun k => index (values s) (ID k)) <$> keys s).
  rewrite Keys_Inv, Values_Inv, Hne by done.
  split; [done |]. split; [done |].
  split; [rewrite length_fmap; unfold Len; lia |].
  split; [by rewrite !length_fmap |].
  intros i name alt H.
  apply list_lookup_fmap_Some in H as (k & -> & Hk).
  assert (ID k = Sum64a (Name k) /\ Name k <> "") as [Hid Hname].
  { unfold KeysWF in Hwf. rewrite Forall_lookup in Hwf. by eapply Hwf. }
  assert (is_Some (values s !! ID k)) as [v Hv].
  { apply Hdom. apply list_elem_of_fmap. exists k. split; [done |].
    by eapply list_elem_of_lookup_2. }
  split.
  - unfold Dict_Key, GetKeyID. rewrite Hne, (MakeKey_name k Hid Hname).
    simpl. apply bool_decide_eq_true_2. eauto.
  - exists v. split.
    + rewrite list_lookup_fmap, Hk. simpl. unfold index. by rewrite Hv.
    + by apply Get_present with (k := k); [| apply MakeKey_name |].
Qed.

(** ** Removal and insertion, seen through the public operations *)

Lemma filter_all {A : Type} (P : A -> Prop) `{forall x, Decision (P x)}
    (l : list A) :
  Forall P l -> filter P l = l.
Proof.
  induction 1 as [| x l Hx Hl IH]; [done |].
  rewrite filter_cons_True by done. by rewrite IH.
Qed.

Lemma remove_is_filter (l : list Key) (n : nat) (k : Key) :
  NoDup (ID <$> l) -> l !! n = Some k ->
  take n l ++ drop (S n) l = filter (fun k' => ID k' <> ID k) l.
Proof.
  intros Hnd Hk. pose proof (take_drop_middle _ _ _ Hk) as Hmid.
  rewrite <- Hmid in Hnd at 1. rewrite <- Hmid at 3.
  rewrite fmap_app, fmap_cons in Hnd.
  apply NoDup_app in Hnd as (_ & Hdisj & Hnd2).
  apply NoDup_cons in Hnd2 as (Hk2 & _).
  rewrite filter_app, filter_cons_False by (intros Hne; by apply Hne).
  rewrite !filter_all; [done | |].
  - apply Forall_forall. intros k' Hin Heq. apply Hk2. rewrite <- Heq.
    apply list_elem_of_fmap. eauto.
  - apply Forall_forall. intros k' Hin Heq.
    apply (Hdisj (ID k')); [apply list_elem_of_fmap; eauto |].
    rewrite Heq. by left.
Qed.

Lemma Key_is_lookup (s : Dict) (key : value) (k : Key) :
  Inv s -> MakeKey key = Some k ->
  Dict_Key (Some s) key = bool_decide (is_Some (values s !! ID k)).
Proof.
  intros (Hsz & Hlen & _) Hk. unfold Dict_Key, GetKeyID, IsEmpty, Len.
  rewrite Hk. destruct (Z.eqb_spec (size s) 0) as [H0 | Hne]; [| done].
  simpl. assert (values s = ∅) as ->.
  { apply map_size_empty_inv. lia. }
  rewrite lookup_empty. symmetry. apply bool_decide_eq_false_2.
  by intros [v Hv].
Qed.

Lemma Del_present_id (s : Dict) (key : value) (k : Key) :
  Inv s -> MakeKey key = Some k -> is_Some (values s !! ID k) ->
  Del (Some s) key =
    Ok (Some (mkDict (size s - 1) (AddInt64 (version s) 1)
                (filter (fun k' => ID k' <> ID k) (keys s))
                (delete (ID k) (values s))), true).
Proof.
  intros HI Hk Hpres. pose proof HI as (_ & _ & Hnd & _).
  assert (Dict_Key (Some s) key = true) as Hkey.
  { rewrite (Key_is_lookup s key k HI Hk). by apply bool_decide_eq_true_2. }
  pose proof Hkey as Hkey'.
  apply Key_true in Hkey' as (k0 & Hk0 & _ & _ & Hget).
  assert (k0 = k) as -> by congruence.
  destruct (Del_present s key HI Hkey) as (n & k' & Hk' & Hdel).
  assert (ID k' = ID k) as Hid.
  { unfold Del in Hdel. rewrite Hget in Hdel. simpl in Hdel.
    destruct (index_of (ID k) (keys s) 0) as [j |] eqn:Hidx.
    - apply index_of_Some in Hidx as (m & k1 & -> & Hk1 & Hid1).
      simpl in Hdel. replace (Z.to_nat (0 + Z.of_nat m)) with m in Hdel by lia.
      rewrite Hk1, Hid1, Z.eqb_refl in Hdel. simpl in Hdel.
      replace (0 + Z.of_nat m) with (Z.of_nat m) in Hdel by lia.
      rewrite (deleteItem_at s m k1 HI Hk1) in Hdel. simpl in Hdel.
      injection Hdel as _ Hvals.
      destruct (decide (ID k' = ID k)) as [Heq | Hne]; [done |].
      destruct Hpres as [v Hv].
      assert (delete (ID k1) (values s) !! ID k
              = delete (ID k') (values s) !! ID k) as Hl by (by rewrite Hvals).
      rewrite Hid1, lookup_delete_eq, lookup_delete_ne, Hv in Hl by done.
      discriminate.
    - apply index_of_None in Hidx. destruct HI as (_ & _ & _ & Hdom).
      by apply Hdom in Hpres. }
  rewrite Hdel. rewrite (remove_is_filter (keys s) n k' Hnd Hk').
  by rewrite Hid.
Qed.

(** X3. [Del] removes exactly one identity.  On a container that
    satisfies the invariant, [Del] of a member returns true, drops that
    identity from the order sequence and from the value index, keeps
    the other keys in their order and the other values, lowers [Len]
    by one, and the key is no longer a member; [Del] of a key that is
    not a member returns false and leaves the container as it is. *)
Theorem Del_removes_one (s : Dict) (key : value) :
  Inv s ->
  if Dict_Key (Some s) key
  then exists s' k,
         MakeKey key = Some k /\
         Del (Some s) key = Ok (Some s', true) /\
         keys s' = filter (fun k' => ID k' <> ID k) (keys s) /\
         values s' = delete (ID k) (values s) /\
         Len s' = Len s - 1 /\
         Dict_Key (Some s') key = false
  else Del (Some s) key = Ok (Some s, false).
Proof.
  intros HI. destruct (Dict_Key (Some s) key) eqn:Hkey;
    [| by apply Del_absent].
  apply Key_true in Hkey as (k & Hk & _ & Hpres & _).
  eexists _, k. split; [done |].
  split; [by apply Del_present_id |]. simpl.
  split; [done |]. split; [done |]. split; [done |].
  unfold Dict_Key, GetKeyID. destruct (IsEmpty _); [done |].
  rewrite Hk. simpl. apply bool_decide_eq_false_2.
  rewrite lookup_delete_eq. by intros [v Hv].
Qed.

(** X4. [Set] touches one identity.  On a container that satisfies the
    invariant and leaves room in the size counter: the values under the
    other IDs are kept; when the key is a member the order sequence and
    [Len] are unchanged, otherwise the new key is appended at the end
    and [Len] grows by one; and on a container that was not empty,
    [Get] under a key with another ID returns what it returned
    before. *)
Theorem Set_touches_one (s : Dict) (key val : value) (k : Key) :
  Inv s -> Z.of_nat (length (keys s)) < MaxInt64 ->
  MakeKey key = Some k ->
  (forall id, id <> ID k ->
     values (Dict_Set (Some s) key val) !! id = values s !! id) /\
  (if Dict_Key (Some s) key
   then keys (Dict_Set (Some s) key val) = keys s /\
        Len (Dict_Set (Some s) key val) = Len s
   else keys (Dict_Set (Some s) key val) = keys s ++ [k] /\
        Len (Dict_Set (Some s) key val) = Len s + 1) /\
  (forall key2 k2 alt,
     IsEmpty (Some s) = false -> MakeKey key2 = Some k2 -> ID k2 <> ID k ->
     Get (Some (Dict_Set (Some s) key val)) key2 alt = Get (Some s) key2 alt).
Proof.
  intros HI Hfit Hk.
  assert (forall id, id <> ID k ->
            values (Dict_Set (Some s) key val) !! id = values s !! id)
    as Hframe.
  { intros id Hne. unfold Dict_Set. rewrite Hk.
    destruct (values s !! ID k); simpl; by rewrite lookup_insert_ne. }
  split; [done |]. split.
  - rewrite (Key_is_lookup s key k HI Hk). unfold Dict_Set, Len. rewrite Hk.
    destruct (values s !! ID k) as [curr |] eqn:Hv; simpl.
    + done.
    + split; [done |]. destruct HI as (Hsz & _).
      apply AddInt64_in_range. unfold MaxInt64 in *. lia.
  - intros key2 k2 alt Hne Hk2 Hid.
    rewrite !Get_not_empty; [| done | by eapply Set_not_empty].
    rewrite Hk2. simpl. by rewrite Hframe.
Qed.

(** X5. [PopItem] undoes the [Set] of a new key.  On a container that
    satisfies the invariant and leaves room in the size counter, after
    [Set] of a key that was not a member, [PopItem] returns that key's
    name with the value set, and the order sequence, the value index
    and [Len] are as before the [Set]. *)
Theorem Set_then_PopItem (s : Dict) (key val : value) (k : Key) :
  Inv s -> Z.of_nat (length (keys s)) < MaxInt64 ->
  MakeKey key = Some k -> Dict_Key (Some s) key = false ->
  exists s',
    PopItem (Some (Dict_Set (Some s) key val))
      = Ok (Some s', Some (mkItem (VString (Name k)) val)) /\
    keys s' = keys s /\ values s' = values s /\ Len s' = Len s.
Proof.
  intros HI Hfit Hk Hkey.
  rewrite (Key_is_lookup s key k HI Hk) in Hkey.
  apply bool_decide_eq_false_1 in Hkey.
  assert (values s !! ID k = None) as Hv.
  { destruct (values s !! ID k); [| done]. destruct Hkey. eauto. }
  assert (Inv (Dict_Set (Some s) key val)) as HI'.
  { apply Set_Inv; [done |]. pose proof (Set_length_mono s key val).
    unfold Dict_Set in *. rewrite Hk, Hv in *. simpl in *.
    rewrite length_app. simpl. lia. }
  assert (keys (Dict_Set (Some s) key val) = keys s ++ [k]) as Hks.
  { unfold Dict_Set. by rewrite Hk, Hv. }
  rewrite (PopItem_last _ (keys s) k HI' Hks).
  unfold index. rewrite (Set_lookup s key val k Hk).
  eexists. split; [reflexivity |]. simpl. split; [done |].
  unfold Dict_Set, Len. rewrite Hk, Hv. simpl. split.
  - by rewrite delete_insert_eq, delete_id.
  - destruct HI as (Hsz & _).
    rewrite AddInt64_in_range by (unfold MaxInt64 in *; lia). lia.
Qed.

(** X6. [Del] undoes the [Set] of a new key.  On a container that
    satisfies the invariant and leaves room in the size counter, after
    [Set] of a key that was not a member, [Del] of that key returns true
    and the order sequence, the value index and [Len] are as before the
    [Set]. *)
Theorem Set_then_Del (s : Dict) (key val : value) (k : Key) :
  Inv s -> Z.of_nat (length (keys s)) < MaxInt64 ->
  MakeKey key = Some k -> Dict_Key (Some s) key = false ->
  exists s',
    Del (Some (Dict_Set (Some s) key val)) key = Ok (Some s', true) /\
    keys s' = keys s /\ values s' = values s /\ Len s' = Len s.
Proof.
  intros HI Hfit Hk Hkey.
  rewrite (Key_is_lookup s key k HI Hk) in Hkey.
  apply bool_decide_eq_false_1 in Hkey.
  assert (values s !! ID k = None) as Hv.
  { destruct (values s !! ID k); [| done]. destruct Hkey. eauto. }
  assert (Inv (Dict_Set (Some s) key val)) as HI'.
  { apply Set_Inv; [done |]. pose proof (Set_length_mono s key val).
    unfold Dict_Set in *. rewrite Hk, Hv in *. simpl in *.
    rewrite length_app. simpl. lia. }
  rewrite (Del_present_id _ key k HI' Hk)
    by (rewrite (Set_lookup s key val k Hk); eauto).
  eexists. split; [reflexivity |]. unfold Dict_Set, Len.
  rewrite Hk, Hv. simpl. split; [| split].
  - rewrite filter_app, filter_cons_False, filter_nil, app_nil_r
      by (intros Hne; by apply Hne).
    apply filter_all. apply Forall_forall. intros k' Hin Heq.
    destruct HI as (_ & _ & _ & Hdom).
    assert (is_Some (values s !! ID k)) as [v Hv'].
    { apply Hdom. rewrite <- Heq. apply list_elem_of_fmap. eauto. }
    congruence.
  - by rewrite delete_insert_eq, delete_id.
  - destruct HI as (Hsz & _).
    rewrite AddInt64_in_range by (unfold MaxInt64 in *; lia). lia.
Qed.

Lemma snapshot_delete_last (ks : list Key) (k : Key) (m : gmap Z value) :
  NoDup (ID <$> (ks ++ [k])) ->
  (fun k' => mkItem (VString (Name k')) (index (delete (ID k) m) (ID k')))
    <$> ks
  = (fun k' => mkItem (VString (Name k')) (index m (ID k'))) <$> ks.
Proof.
  intros Hnd. apply Forall_fmap_ext_1, Forall_forall. intros k' Hin.
  rewrite fmap_app in Hnd. apply NoDup_app in Hnd as (_ & Hdisj & _).
  unfold index. rewrite lookup_delete_ne; [done |]. intros Heq.
  apply (Hdisj (ID k')); [apply list_elem_of_fmap; eauto |].
  rewrite <- Heq. simpl. by left.
Qed.

(** X7. [PopItem] takes the last entry.  On a container that satisfies
    the invariant: when it is empty [PopItem] returns nothing and leaves
    it as it is; otherwise it returns the last item of what [Items]
    would send, the items left are the ones before it, in their order
    and with their values, and [Len] is one less. *)
Theorem PopItem_takes_last (s : Dict) :
  Inv s ->
  if IsEmpty (Some s) then PopItem (Some s) = Ok (Some s, None)
  else exists s' item,
         PopItem (Some s) = Ok (Some s', Some item) /\
         snapshot s = snapshot s' ++ [item] /\
         Len s' = Len s - 1.
Proof.
  intros HI. destruct (IsEmpty (Some s)) eqn:Hemp.
  - unfold PopItem. by rewrite Hemp.
  - pose proof HI as (Hsz & _ & Hnd & _).
    destruct (list_last_case (keys s)) as [Hnil | (ks & k & Hks)].
    + unfold IsEmpty, Len in Hemp. rewrite Hsz, Hnil in Hemp. done.
    + rewrite (PopItem_last s ks k HI Hks). eexists _, _.
      split; [reflexivity |]. split; [| done].
      unfold snapshot. simpl. rewrite Hks in *. rewrite fmap_app. simpl.
      by rewrite snapshot_delete_last.
Qed.

(** X8. [Pop] of a member.  On a container that satisfies the invariant,
    [Pop] of a member whose value is not nil returns the value and
    removes the entry as [Del] does; [Pop] of a member whose value is
    nil returns nil and leaves the entry in the container, whatever the
    alternate. *)
Theorem Pop_member (s : Dict) (key : value) (k : Key) (v : value)
    (alt : option (list value)) :
  Inv s -> MakeKey key = Some k -> values s !! ID k = Some v ->
  Pop (Some s) key alt =
    if is_nil v then Ok (Some s, VNil)
    else Ok (Some (mkDict (size s - 1) (AddInt64 (version s) 1)
                     (filter (fun k' => ID k' <> ID k) (keys s))
                     (delete (ID k) (values s))), v).
Proof.
  intros HI Hk Hv.
  assert (IsEmpty (Some s) = false) as Hne.
  { pose proof (Inv_present_nonempty s (ID k) HI) as Hpos.
    rewrite Hv in Hpos. specialize (Hpos (ltac:(eauto))).
    unfold IsEmpty, Len. apply Z.eqb_neq. lia. }
  unfold Pop. rewrite (Get_present s key k v _ Hne Hk Hv). simpl.
  destruct v; simpl; try done;
    by rewrite (Del_present_id s key k HI Hk) by eauto.
Qed.

(** X9. A member is known by its ID alone.  When the key given to [Set]
    hashes to the ID of a member, the member's value is replaced and
    the order sequence, with the name the member was first set under,
    is kept, whatever the text of the new key; [Get] under either key
    then returns the new value. *)
Theorem Set_same_ID (s : Dict) (x y val : value) (kx ky : Key) :
  Inv s ->
  MakeKey x = Some kx -> MakeKey y = Some ky -> ID kx = ID ky ->
  is_Some (values s !! ID kx) ->
  keys (Dict_Set (Some s) y val) = keys s /\
  Len (Dict_Set (Some s) y val) = Len s /\
  forall alt,
    Get (Some (Dict_Set (Some s) y val)) x alt = Ok val /\
    Get (Some (Dict_Set (Some s) y val)) y alt = Ok val.
Proof.
  intros HI Hx Hy Hid [curr Hcurr].
  assert (keys (Dict_Set (Some s) y val) = keys s /\
          Len (Dict_Set (Some s) y val) = Len s) as [Hks Hlen].
  { unfold Dict_Set, Len. rewrite Hy, <- Hid, Hcurr. done. }
  split; [done |]. split; [done |]. intros alt.
  assert (IsEmpty (Some (Dict_Set (Some s) y val)) = false) as Hne.
  { pose proof (Inv_present_nonempty s (ID kx) HI) as Hpos.
    rewrite Hcurr in Hpos. specialize (Hpos (ltac:(eauto))).
    unfold IsEmpty. rewrite Hlen. unfold Len. apply Z.eqb_neq. lia. }
  pose proof (Set_lookup s y val ky Hy) as Hl.
  split.
  - apply (Get_present _ x kx val alt Hne Hx). by rewrite Hid.
  - by apply (Get_present _ y ky val alt Hne Hy).
Qed.

(** ** Loading one container into another *)

Lemma filter_ext_in {A : Type} (P Q : A -> Prop)
    `{forall x, Decision (P x)} `{forall x, Decision (Q x)} (l : list A) :
  Forall (fun x => P x <-> Q x) l -> filter P l = filter Q l.
Proof.
  induction 1 as [| x l Hx Hl IH]; [done |].
  rewrite !filter_cons, IH.
  destruct (decide (P x)), (decide (Q x)); tauto.
Qed.

(** The first loop of [Update], on the items of a container whose order
    sequence is [ks] and whose value index is [m]. *)
Lemma Set_items_fold (m : gmap Z value) (ks : list Key) (d : Dict) :
  Forall (fun k => ID k = Sum64a (Name k) /\ Name k <> "") ks ->
  NoDup (ID <$> ks) ->
  0 <= size d -> size d + Z.of_nat (length ks) <= MaxInt64 ->
  let d' :=
    fold_left
      (fun d item => Dict_Set (Some d) (ItemKey item) (ItemValue item))
      ((fun k => mkItem (VString (Name k)) (index m (ID k))) <$> ks) d in
  keys d' = keys d ++ filter (fun k => values d !! ID k = None) ks /\
  size d' =
    size d
    + Z.of_nat (length (filter (fun k => values d !! ID k = None) ks)) /\
  forall id,
    values d' !! id =
      if decide (id ∈ ID <$> ks) then Some (index m id) else values d !! id.
Proof.
  revert d. induction ks as [| k ks IH]; intros d Hwf Hnd H0 Hfit; simpl.
  - rewrite app_nil_r. split; [done |]. split; [lia | done].
  - apply Forall_cons in Hwf as [[Hid Hname] Hwf].
    rewrite fmap_cons in Hnd. apply NoDup_cons in Hnd as [Hk Hnd].
    simpl in Hfit.
    pose proof (MakeKey_name k Hid Hname) as Hmk.
    set (d1 := Dict_Set (Some d) (VString (Name k)) (index m (ID k))).
    assert (values d1 = <[ID k := index m (ID k)]> (values d)) as Hv1.
    { unfold d1, Dict_Set. rewrite Hmk. by destruct (values d !! ID k). }
    assert (Forall (fun k' => values d1 !! ID k' = None
                              <-> values d !! ID k' = None) ks) as Hext.
    { apply Forall_forall. intros k' Hin. rewrite Hv1.
      rewrite lookup_insert_ne; [done |]. intros Heq. apply Hk.
      rewrite Heq. by apply list_elem_of_fmap_2. }
    assert (0 <= size d1 /\
            size d1 + Z.of_nat (length ks) <= MaxInt64 /\
            keys d1 ++ filter (fun k' => values d !! ID k' = None) ks
            = keys d ++ filter (fun k' => values d !! ID k' = None) (k :: ks)
            /\
            size d1
            + Z.of_nat (length (filter (fun k' => values d !! ID k' = None)
                                  ks))
            = size d
              + Z.of_nat (length (filter
                                    (fun k' => values d !! ID k' = None)
                                    (k :: ks))))
      as (H01 & Hfit1 & Hkeys1 & Hsize1).
    { rewrite filter_cons. unfold d1, Dict_Set. rewrite Hmk.
      destruct (values d !! ID k) as [curr |] eqn:Hcurr; simpl.
      - repeat split; lia.
      - rewrite AddInt64_in_range by (unfold MaxInt64 in *; lia).
        simpl. rewrite <- app_assoc. simpl. repeat split; lia. }
    destruct (IH d1 Hwf Hnd H01 Hfit1) as (Hks & Hsz & Hvals).
    rewrite (filter_ext_in _ _ ks Hext) in Hks, Hsz.
    split; [rewrite <- Hkeys1; exact Hks |].
    split; [rewrite <- Hsize1; exact Hsz |].
    intros id. etrans; [apply Hvals |]. rewrite Hv1.
    change (list_fmap Key Z ID ks) with (ID <$> ks).
    destruct (decide (id ∈ ID <$> ks)) as [Hin | Hnin],
             (decide (id ∈ ID k :: (ID <$> ks))) as [Hin' | Hnin'].
    + done.
    + destruct Hnin'. by right.
    + apply elem_of_cons in Hin' as [-> | ?]; [| done].
      by rewrite lookup_insert_eq.
    + rewrite lookup_insert_ne; [done |]. intros <-. apply Hnin'. by left.
Qed.

Lemma Update_arg_dict (mem : loc -> Dict) (self : loc -> bool)
    (s : Dict) (l : loc) :
  let o := if self l then s else mem l in
  Inv s -> Inv o -> KeysWF o ->
  Z.of_nat (length (keys s)) + Z.of_nat (length (keys o)) <= MaxInt64 ->
  let s' := Update_arg mem self s (ADict (Some l)) in
  keys s' = keys s ++ filter (fun k => values s !! ID k = None) (keys o) /\
  values s' = values o ∪ values s /\
  Len s' = Z.of_nat (length (keys s')).
Proof.
  intros o HI HIo Hwf Hfit. unfold Update_arg. fold o.
  pose proof HI as (Hsz & _). pose proof HIo as (Hszo & _ & Hndo & Hdomo).
  assert (range_chan (Items (Some o)) = snapshot o) as ->.
  { destruct (Items_not_nil (Some o)) as [c Hc]. rewrite Hc. simpl.
    by apply (Items_Inv o c HIo). }
  unfold snapshot.
  destruct (Set_items_fold (values o) (keys o) s Hwf Hndo) as (Hk & Hs & Hv);
    [lia | lia |].
  simpl. split; [done |]. split.
  - apply map_eq. intros id. rewrite Hv.
    destruct (decide (id ∈ ID <$> keys o)) as [Hin | Hnin].
    + apply Hdomo in Hin as Hsome. rewrite lookup_union_l' by done.
      destruct Hsome as [v Hvo]. unfold index. by rewrite Hvo.
    + rewrite lookup_union_r; [done |].
      destruct (values o !! id) eqn:Hvo; [| done].
      destruct Hnin. apply Hdomo. eauto.
  - unfold Len. rewrite Hs, Hk, length_app. lia.
Qed.

(** X10. [Update] with another container merges it in.  When both
    containers satisfy the invariant, the keys of the other are made by
    the codec and the two order sequences together fit the size
    counter, [d.Update(other)] keeps the order sequence of [d] and
    appends the keys of [other] that [d] does not hold, in the order of
    [other]; every value of [other] is stored, the values of [d] under
    other IDs are kept, and [Len] is the length of the new sequence.
    With [other] the receiver itself, the sequence and the values are
    unchanged. *)
Theorem Update_merges (mem : loc -> Dict) (self : loc -> bool)
    (s : Dict) (l : loc) :
  let o := if self l then s else mem l in
  Inv s -> Inv o -> KeysWF o ->
  Z.of_nat (length (keys s)) + Z.of_nat (length (keys o)) <= MaxInt64 ->
  exists s' b,
    Update mem self (Some s) (Some [ADict (Some l)]) = Ok (Some s', b) /\
    keys s' = keys s ++ filter (fun k => values s !! ID k = None) (keys o) /\
    values s' = values o ∪ values s /\
    Len s' = Z.of_nat (length (keys s')) /\
    (self l = true -> keys s' = keys s /\ values s' = values s).
Proof.
  intros o HI HIo Hwf Hfit.
  destruct (Update_arg_dict mem self s l HI HIo Hwf Hfit) as (Hk & Hv & Hl).
  exists (Update_arg mem self s (ADict (Some l))). eexists.
  split; [reflexivity |].
  split; [done |]. split; [done |]. split; [done |].
  intros Hself. rewrite Hk, Hv. unfold o. rewrite Hself.
  split; [| apply (idemp_L (∪))].
  rewrite (filter_ext_in _ (fun _ => False) (keys s)).
  - assert (filter (fun _ : Key => False) (keys s) = []) as ->;
      [| by rewrite app_nil_r].
    clear. induction (keys s) as [| k ks IH]; [done |].
    by rewrite filter_cons_False by tauto.
  - apply Forall_forall. intros k Hin. split; [| done]. intros Hnone.
    destruct HI as (_ & _ & _ & Hdom).
    assert (is_Some (values s !! ID k)) as [v Hv']
      by (apply Hdom; by apply list_elem_of_fmap_2).
    congruence.
Qed.

(** X11. [New] with a container as its argument copies it.  When the
    container satisfies the invariant, its keys are made by the codec
    and its order sequence fits the size counter, the new container has
    the same order sequence, the same values and the same [Len]. *)
Theorem New_copies (mem : loc -> Dict) (l : loc) :
  Inv (mem l) -> KeysWF (mem l) ->
  Z.of_nat (length (keys (mem l))) <= MaxInt64 ->
  keys (New mem (Some [ADict (Some l)])) = keys (mem l) /\
  values (New mem (Some [ADict (Some l)])) = values (mem l) /\
  Len (New mem (Some [ADict (Some l)])) = Len (mem l).
Proof.
  intros HI Hwf Hfit.
  destruct (Update_arg_dict mem (fun _ => false) emptyDict l
              Inv_empty HI Hwf) as (Hk & Hv & Hl); [simpl; lia |].
  change (New mem (Some [ADict (Some l)]))
    with (Update_arg mem (fun _ => false) emptyDict (ADict (Some l))).
  assert (keys (Update_arg mem (fun _ => false) emptyDict (ADict (Some l)))
          = keys (mem l)) as Hk'.
  { rewrite Hk. simpl. apply filter_all, Forall_forall. intros k _.
    apply lookup_empty. }
  split; [done |]. split.
  - rewrite Hv. simpl. apply (right_id_L ∅ (∪)).
  - rewrite Hl, Hk'. destruct HI as (Hsz & _). unfold Len. by rewrite Hsz.
Qed.

(** ** Decoded JSON arrays *)

(** The loop once a kind is seen: [k] and [kseen] hold the same kind. *)
Lemma hasSameKind_seen_true (k0 k : Kind) (a : list value) :
  k0 = Bool \/ k0 = Float64 \/ k0 = String ->
  hasSameKind_loop k0 k0 a = (k, true) ->
  k = k0 /\ Forall (fun x => hasSameKind_case k0 x = Some k0) a.
Proof.
  intros Hk0. induction a as [| x a IH]; simpl.
  - intros [= <- _]. by split.
  - destruct Hk0 as [-> | [-> | ->]];
      (destruct x as [| ? | ? ? | ? ? | [|] ? | ? | ? ? | ? ? | ? | ? ?
                      | ? | ?];
       simpl; try discriminate;
       intros H; destruct (IH H) as [-> HF];
       (split; [done | by constructor])).
Qed.

Lemma hasSameKind_seen_false (k0 k : Kind) (a : list value) :
  k0 = Bool \/ k0 = Float64 \/ k0 = String ->
  hasSameKind_loop k0 k0 a = (k, false) -> k = Invalid.
Proof.
  intros Hk0. induction a as [| x a IH]; simpl.
  - destruct Hk0 as [-> | [-> | ->]]; discriminate.
  - destruct Hk0 as [-> | [-> | ->]];
      (destruct x as [| ? | ? ? | ? ? | [|] ? | ? | ? ? | ? ? | ? | ? ?
                      | ? | ?];
       simpl; try (by intros [= <-]); try (intros H; by apply IH)).
Qed.

Lemma hasSameKind_seen_intro (k0 : Kind) (a : list value) :
  k0 = Bool \/ k0 = Float64 \/ k0 = String ->
  Forall (fun x => hasSameKind_case k0 x = Some k0) a ->
  hasSameKind_loop k0 k0 a = (k0, true).
Proof.
  intros Hk0. induction 1 as [| x a Hx HF IH]; simpl.
  - by destruct Hk0 as [-> | [-> | ->]].
  - destruct Hk0 as [-> | [-> | ->]];
      (destruct x as [| ? | ? ? | ? ? | [|] ? | ? | ? ? | ? ? | ? | ? ?
                      | ? | ?];
       simpl in *; try discriminate; apply IH).
Qed.

Lemma hasSameKind_true (a : list value) (k : Kind) :
  hasSameKind a = (k, true) ->
  (k = Bool \/ k = Float64 \/ k = String) /\
  Forall (fun x => hasSameKind_case k x = Some k) a /\
  Exists (fun x => x <> VNil) a.
Proof.
  unfold hasSameKind. induction a as [| x a IH]; simpl; [discriminate |].
  destruct x as [| ? | ? ? | ? ? | [|] ? | ? | ? ? | ? ? | ? | ? ? | ? | ?];
    simpl; try discriminate.
  - intros H. destruct (IH H) as (Hk & HF & HE).
    split; [done |]. split; [by constructor | by right].
  - intros H. apply hasSameKind_seen_true in H as [-> HF]; [| auto].
    split; [auto |]. split; [by constructor | by left].
  - intros H. apply hasSameKind_seen_true in H as [-> HF]; [| auto].
    split; [auto |]. split; [by constructor | by left].
  - intros H. apply hasSameKind_seen_true in H as [-> HF]; [| auto].
    split; [auto |]. split; [by constructor | by left].
Qed.

Lemma hasSameKind_false (a : list value) (k : Kind) :
  hasSameKind a = (k, false) -> k = Invalid.
Proof.
  unfold hasSameKind. induction a as [| x a IH]; simpl;
    [by intros [= <-] |].
  destruct x as [| ? | ? ? | ? ? | [|] ? | ? | ? ? | ? ? | ? | ? ? | ? | ?];
    simpl; try (by intros [= <-]); try done;
    apply hasSameKind_seen_false; auto.
Qed.

Lemma hasSameKind_intro (a : list value) (k : Kind) :
  k <> Invalid ->
  Forall (fun x => hasSameKind_case k x = Some k) a ->
  Exists (fun x => x <> VNil) a ->
  hasSameKind a = (k, true).
Proof.
  intros Hk HF HE. unfold hasSameKind.
  induction HF as [| x a Hx HF IH]; [by apply Exists_nil in HE |].
  destruct x as [| ? | ? ? | ? ? | [|] ? | ? | ? ? | ? ? | ? | ? ? | ? | ?];
    simpl in *; try discriminate.
  - apply IH. by apply Exists_cons in HE as [? | ?].
  - injection Hx as <-. by apply hasSameKind_seen_intro; auto.
  - injection Hx as <-. by apply hasSameKind_seen_intro; auto.
  - injection Hx as <-. by apply hasSameKind_seen_intro; auto.
Qed.

(** X12. [hasSameKind] answers true with a kind exactly when the kind is
    not [Invalid], every element is nil or of that kind, the kind being
    bool, float64 or string, and some element is not nil; whenever it
    answers false the kind it returns is [Invalid]. *)
Theorem hasSameKind_spec (a : list value) (k : Kind) :
  (hasSameKind a = (k, true) <->
     k <> Invalid /\
     Forall (fun x => hasSameKind_case k x = Some k) a /\
     Exists (fun x => x <> VNil) a) /\
  (hasSameKind a = (k, false) -> k = Invalid).
Proof.
  split; [split |].
  - intros H. apply hasSameKind_true in H as (Hk & HF & HE).
    split; [| done]. by destruct Hk as [-> | [-> | ->]].
  - intros (Hk & HF & HE). by apply hasSameKind_intro.
  - apply hasSameKind_false.
Qed.

(** X13. What [UnmarshalJSON] stores for a decoded array has the length
    of the array, and at every position the element of the array; only
    a null in an array that [hasSameKind] accepts is replaced, by the
    zero value of the kind: false, 0 or the empty string. *)
Theorem UnmarshalJSON_array_nulls (x : list value) :
  exists ys,
    UnmarshalJSON_array x = VSlice (Some ys) /\
    length ys = length x /\
    forall i v,
      x !! i = Some v ->
      ys !! i =
        Some (if is_nil v
              then match fst (hasSameKind x) with
                   | Bool => VBool false
                   | Float64 => VFloat KFloat64 0
                   | String => VString ""
                   | _ => VNil
                   end
              else v).
Proof.
  unfold UnmarshalJSON_array.
  destruct (hasSameKind x) as [k [|]] eqn:Hsame; simpl.
  - apply hasSameKind_true in Hsame as (Hk & HF & _).
    destruct Hk as [-> | [-> | ->]];
      (eexists; split; [reflexivity |]; split; [by rewrite length_fmap |];
       intros i v Hv; rewrite list_lookup_fmap, Hv; simpl;
       pose proof (proj1 (Forall_lookup _ _) HF i v Hv) as Hc;
       by destruct v as [| ? | ? ? | ? ? | [|] ? | ? | ? ? | ? ? | ? | ? ?
                         | ? | ?]).
  - apply hasSameKind_false in Hsame as ->.
    eexists. split; [reflexivity |]. split; [done |].
    intros i v Hv. rewrite Hv. by destruct v.
Qed.

(** ** The JSON text of a container *)

Lemma append_nil_r (a : string) : (a ++ "")%string = a.
Proof.
  induction a as [| c a IH]; [done |].
  change (String.String c (a ++ "")%string = String.String c a).
  by rewrite IH.
Qed.

Lemma append_assoc (a b c : string) :
  ((a ++ b) ++ c)%string = (a ++ b ++ c)%string.
Proof.
  induction a as [| x a IH]; [done |].
  change (String.String x ((a ++ b) ++ c)%string
          = String.String x (a ++ b ++ c)%string).
  by rewrite IH.
Qed.

Lemma MarshalJSON_loop_snapshot (m : gmap Z value) (ks : list Key)
    (len cnt : Z) (sb : string) :
  len = cnt + Z.of_nat (length ks) ->
  MarshalJSON_loop len
    ((fun k => mkItem (VString (Name k)) (index m (ID k))) <$> ks) cnt sb
  = Ok ((fun ps =>
           (sb ++ String.concat ","
                    (zip_with
                       (fun k p => dquote ++ Name k ++ dquote ++ ":" ++ p)
                       ks ps))%string)
        <$> mapM (fun k => Marshal (index m (ID k))) ks).
Proof.
  revert cnt sb. induction ks as [| k ks IH]; intros cnt sb Hlen.
  - simpl. by rewrite append_nil_r.
  - rewrite fmap_cons. simpl MarshalJSON_loop. simpl mapM.
    destruct (Marshal (index m (ID k))) as [p |]; [| done].
    rewrite (IH (cnt + 1)) by (simpl in Hlen; lia).
    simpl. destruct (mapM _ ks) as [ps |] eqn:Hps; [| done]. simpl.
    apply length_mapM in Hps. do 2 f_equal.
    destruct ks as [| k2 ks]; destruct ps as [| p2 ps]; try discriminate.
    + simpl in Hlen. replace (cnt + 1 <? len) with false
        by (symmetry; apply Z.ltb_ge; lia).
      simpl. by rewrite append_nil_r.
    + replace (cnt + 1 <? len) with true
        by (symmetry; apply Z.ltb_lt; simpl in Hlen; lia).
      cbn [zip_with String.concat]. by rewrite !append_assoc.
Qed.

(** X14. The JSON text.  On a container that satisfies the invariant,
    [MarshalJSON] never panics; it returns the text null when the
    container is empty, the error of [json.Marshal] when a value cannot
    be encoded, and otherwise one object whose members are the entries
    in insertion order, each the quoted name, a colon and the encoded
    value, with a comma between two members and none after the last. *)
Theorem MarshalJSON_object (s : Dict) :
  Inv s ->
  MarshalJSON (Some s) =
    if IsEmpty (Some s) then Ok (Some "null")
    else
      Ok ((fun ps =>
             ("{" ++ String.concat ","
                       (zip_with
                          (fun k p => dquote ++ Name k ++ dquote ++ ":" ++ p)
                          (keys s) ps)
                  ++ "}")%string)
          <$> mapM (fun k => Marshal (index (values s) (ID k))) (keys s)).
Proof.
  intros HI. unfold MarshalJSON. destruct (IsEmpty (Some s)) eqn:Hemp;
    [done |].
  unfold Items. rewrite Hemp. simpl range_chan. unfold snapshot.
  rewrite MarshalJSON_loop_snapshot
    by (destruct HI as (Hsz & _); unfold Len; lia).
  simpl. destruct (mapM _ (keys s)); simpl; [| done].
  by rewrite append_assoc.
Qed.

(** ** Keys the codec rejects, empty containers, empty arguments *)

(** X15. A key that the codec rejects is ignored.  [MakeKey] rejects a
    value exactly when its type is not a key type or its text is empty;
    with such a key [Set] leaves the container as it is, [Key] and
    [Del] answer false, [Del] and [Pop] leave the container as it is,
    and on a container that is not empty [Get] returns the first
    alternate, or nil when none is passed. *)
Theorem rejected_key_is_ignored (s : Dict) (key val : value) :
  (MakeKey key = None <->
     isValidKeyType key = false \/ toString key = "") /\
  (MakeKey key = None ->
     Dict_Set (Some s) key val = s /\
     Dict_Key (Some s) key = false /\
     Del (Some s) key = Ok (Some s, false) /\
     (forall alt, exists v, Pop (Some s) key alt = Ok (Some s, v)) /\
     (IsEmpty (Some s) = false ->
        Get (Some s) key None = Ok VNil /\
        forall x rest, Get (Some s) key (Some (x :: rest)) = Ok x)).
Proof.
  split.
  - unfold MakeKey. destruct (isValidKeyType key); simpl.
    + destruct (String.eqb_spec (toString key) ""); split; auto;
        try discriminate. by intros [? | ?].
    + split; auto.
  - intros Hk.
    assert (Dict_Key (Some s) key = false) as Hkey.
    { unfold Dict_Key, GetKeyID. rewrite Hk. by destruct (IsEmpty _). }
    split; [unfold Dict_Set; by rewrite Hk |]. split; [done |].
    split; [by apply Del_absent |].
    split; [intros alt; by apply Pop_absent |].
    intros Hne. split; [| intros x rest]; rewrite Get_not_empty by done;
      by rewrite Hk.
Qed.




(** X17. On an empty container, nil or with a size counter of zero,
    nothing is found and nothing is removed: [Key] and [Del] answer
    false, [Pop] returns nil, [PopItem] returns no item, [Clear]
    answers false, [Keys] and [Values] return nil, [MarshalJSON]
    returns the text null, and the container is left as it is. *)
Theorem empty_container_answers (d : option Dict) (key : value)
    (alt : option (list value)) :
  IsEmpty d = true ->
  Dict_Key d key = false /\
  Del d key = Ok (d, false) /\
  Pop d key alt = Ok (d, VNil) /\
  PopItem d = Ok (d, None) /\
  Clear d = (d, false) /\
  Keys d = Ok None /\
  Values d = Ok None /\
  MarshalJSON d = Ok (Some "null").
Proof.
  intros Hemp.
  assert (Dict_Key d key = false) as Hkey.
  { unfold Dict_Key, GetKeyID. destruct d; [by rewrite Hemp | done]. }
  split; [done |]. split; [by apply Del_absent |].
  split; [unfold Pop; by rewrite Get_empty |].
  destruct d as [s |]; [| done].
  unfold PopItem, Clear, Keys, Values, MarshalJSON. by rewrite Hemp.
Qed.

(** X18. Arguments that yield no pair.  [Update] without arguments
    returns false on any receiver, also nil.  With arguments it panics
    on the nil receiver; and when every argument is nil, a nil or empty
    slice, a channel that delivers nothing, a map that is empty or
    whose key type is not a key type, a nil container or an empty one,
    it returns false and leaves the receiver as it is. *)
Theorem Update_without_pairs (mem : loc -> Dict) (self : loc -> bool)
    (d : option Dict) (s : Dict) (args : list arg) :
  Update mem self d None = Ok (d, false) /\
  Update mem self None (Some args) = Panic /\
  (Forall (fun a =>
             a = AVal VNil \/ a = AVal (VSlice None) \/
             a = AVal (VSlice (Some [])) \/ a = AVal (VChan []) \/
             (exists kt es, a = AVal (VMap kt es) /\
                            (isKeyType kt = false \/ es = [])) \/
             a = ADict None \/
             (exists l, a = ADict (Some l) /\
                        IsEmpty (Some (if self l then s else mem l)) = true))
          args ->
   Update mem self (Some s) (Some args) = Ok (Some s, false)).
Proof.
  split; [done |]. split; [done |]. intros Hargs. unfold Update.
  assert (fold_left (Update_arg mem self) args s = s) as ->.
  { induction Hargs as [| a args Ha _ IH]; [done |]. simpl.
    assert (Update_arg mem self s a = s) as ->; [| done].
    destruct Ha as [-> | [-> | [-> | [-> | [(kt & es & -> & Hm)
                    | [-> | (l & -> & Hl)]]]]]]; try done.
    - unfold Update_arg, toIterable. simpl.
      destruct Hm as [-> | ->]; [done |]. by destruct (isKeyType kt).
    - unfold Update_arg, Items. by rewrite Hl. }
  unfold Version. by rewrite Z.eqb_refl.
Qed.

(** ** Bulk loads *)

Lemma Set_extends (d : Dict) (key val : value) :
  keys d `prefix_of` keys (Dict_Set (Some d) key val) /\
  forall id, is_Some (values d !! id) ->
             is_Some (values (Dict_Set (Some d) key val) !! id).
Proof.
  unfold Dict_Set. destruct (MakeKey key) as [k |]; [| done].
  assert (forall id, is_Some (values d !! id) ->
                     is_Some (<[ID k:=val]> (values d) !! id)) as Hv.
  { intros id Hid. destruct (decide (id = ID k)) as [-> | Hne].
    - rewrite lookup_insert_eq. eauto.
    - by rewrite lookup_insert_ne. }
  destruct (values d !! ID k); simpl; (split; [| done]); [done |].
  by apply prefix_app_r.
Qed.

Lemma fold_extends {A : Type} (f : Dict -> A -> Dict) :
  (forall d a, keys d `prefix_of` keys (f d a) /\
               forall id, is_Some (values d !! id) ->
                          is_Some (values (f d a) !! id)) ->
  forall l d, keys d `prefix_of` keys (fold_left f l d) /\
              forall id, is_Some (values d !! id) ->
                         is_Some (values (fold_left f l d) !! id).
Proof.
  intros Hf l. induction l as [| a l IH]; intros d; simpl; [done |].
  destruct (Hf d a) as [Hp Hv]. destruct (IH (f d a)) as [Hp' Hv'].
  split; [by etrans | auto].
Qed.

Lemma Update_arg_extends (mem : loc -> Dict) (self : loc -> bool)
    (d : Dict) (a : arg) :
  keys d `prefix_of` keys (Update_arg mem self d a) /\
  forall id, is_Some (values d !! id) ->
             is_Some (values (Update_arg mem self d a) !! id).
Proof.
  destruct a as [p | v]; simpl; apply fold_extends; intros d' it.
  - apply Set_extends.
  - unfold Update_item. apply Set_extends.
Qed.

(** X19. [Update] and [New] only add.  Whatever the arguments, the order
    sequence before the call is a prefix of the order sequence after
    it, and every ID that had a value has one after it: no entry is
    removed or moved. *)
Theorem Update_only_adds (mem : loc -> Dict) (self : loc -> bool)
    (s s' : Dict) (vargs : option (list arg)) (b : bool) :
  Update mem self (Some s) vargs = Ok (Some s', b) ->
  keys s `prefix_of` keys s' /\
  forall id, is_Some (values s !! id) -> is_Some (values s' !! id).
Proof.
  unfold Update. destruct vargs as [args |]; intros [= <- _]; [| done].
  apply (fold_extends _ (Update_arg_extends mem self)).
Qed.

Lemma Update_item_other_ID (post : list Item) (d : Dict) (id : Z)
    (val : value) :
  Forall (fun it => is_nil (ItemKey it) = false /\
                    forall k', MakeKey (ItemKey it) = Some k' -> ID k' <> id)
         post ->
  values d !! id = Some val ->
  values (fold_left Update_item post d) !! id = Some val.
Proof.
  intros Hpost. revert d.
  induction Hpost as [| it post [Hnil Hid] _ IH]; intros d Hd; [done |].
  simpl. apply IH. unfold Update_item, Dict_Set. rewrite Hnil.
  destruct (MakeKey (ItemKey it)) as [k' |] eqn:Hk'; [| done].
  specialize (Hid k' eq_refl).
  destruct (values d !! ID k'); simpl; by rewrite lookup_insert_ne.
Qed.

(** X20. The last pair wins.  When the pairs that an argument of
    [Update] yields contain a pair with an accepted key, and no later
    pair of the argument has a key with the same ID or comes without a
    key, then after the call [Get] under that key returns the value of
    that pair.  The receiver satisfies the invariant before the call
    and the order sequence after it fits the size counter. *)
Theorem Update_last_pair_wins (mem : loc -> Dict) (self : loc -> bool)
    (s : Dict) (v key val : value) (pre post : list Item) (k : Key)
    (alt : option (list value)) :
  Inv s ->
  toIterable v = pre ++ mkItem key val :: post ->
  is_nil key = false -> MakeKey key = Some k ->
  Forall (fun it => is_nil (ItemKey it) = false /\
                    forall k', MakeKey (ItemKey it) = Some k' ->
                               ID k' <> ID k)
         post ->
  Z.of_nat (length (keys (Update_arg mem self s (AVal v)))) <= MaxInt64 ->
  exists b,
    Update mem self (Some s) (Some [AVal v])
      = Ok (Some (Update_arg mem self s (AVal v)), b) /\
    Get (Some (Update_arg mem self s (AVal v))) key alt = Ok val.
Proof.
  intros HI Hits Hnil Hk Hpost Hfit. eexists. split; [reflexivity |].
  assert (Inv (Update_arg mem self s (AVal v))) as HI'
    by (by apply (grows_Update_arg mem self)).
  assert (values (Update_arg mem self s (AVal v)) !! ID k = Some val) as Hv.
  { unfold Update_arg. rewrite Hits, fold_left_app. simpl.
    apply Update_item_other_ID; [done |].
    unfold Update_item. simpl. rewrite Hnil. by apply Set_lookup. }
  apply (Get_present _ key k val alt); [| done | done].
  pose proof (Inv_present_nonempty _ (ID k) HI') as Hpos.
  rewrite Hv in Hpos. specialize (Hpos (ltac:(eauto))).
  unfold IsEmpty, Len. apply Z.eqb_neq. lia.
Qed.

(** ** Panics *)



(** ** Items, Keys and Values agree *)

(** X23. On a container that satisfies the invariant and is not empty,
    what the channel of [Items] delivers is, position by position, the
    name that [Keys] returns with the value that [Values] returns. *)
Theorem Items_are_Keys_with_Values (s : Dict) :
  Inv s -> IsEmpty (Some s) = false ->
  exists names vals,
    Keys (Some s) = Ok (Some names) /\
    Values (Some s) = Ok (Some vals) /\
    range_chan (Items (Some s))
    = zip_with (fun name val => mkItem (VString name) val) names vals.
Proof.
  intros HI Hne. rewrite (Keys_Inv s HI), (Values_Inv s HI), Hne.
  eexists _, _. split; [reflexivity |]. split; [reflexivity |].
  unfold Items. rewrite Hne. simpl. unfold snapshot.
  induction (keys s) as [| k ks IH]; [done |].
  rewrite !fmap_cons. simpl. by rewrite IH.
Qed.

(** ** The hash *)

Lemma fnv64a_write_range (p : string) (h : Z) :
  0 <= h < 2 ^ 64 -> 0 <= fnv64a_write h p < 2 ^ 64.
Proof.
  revert h. induction p as [| c p IH]; intros h Hh; simpl; [done |].
  apply IH. unfold uint64_wrap. apply Z.mod_pos_bound. lia.
Qed.

(** X24. What [MakeKey] returns.  When [MakeKey] accepts a value, the
    name of the key is the text of the value and is not empty, the ID
    is the 64-bit FNV-1a hash of the name and lies in the range of
    uint64, and the value is of a key type. *)
Theorem MakeKey_result (v : value) (k : Key) :
  MakeKey v = Some k ->
  isValidKeyType v = true /\
  Name k = toString v /\ Name k <> "" /\
  ID k = Sum64a (Name k) /\ 0 <= ID k < 2 ^ 64.
Proof.
  intros H. apply MakeKey_Some in H as (Hvalid & Hne & ->). simpl.
  split; [done |]. split; [done |]. split; [done |]. split; [done |].
  apply fnv64a_write_range. unfold offset64. lia.
Qed.

Lemma New_no_args (mem : loc -> Dict) : New mem None = emptyDict.
Proof. reflexivity. Qed.

End Container.

(** ** The theorems at concrete inputs *)

Lemma one_entry_Inv :
  Inv (Dict_Set sample_FormatFloat sample_DeepEqual (Some emptyDict)
         (VString "a") (VInt KInt 1)).
Proof.
  apply Set_Inv; [apply Inv_empty |]. vm_compute. discriminate.
Qed.

Lemma Set_then_Get_witness :
  Inv emptyDict /\
  Z.of_nat (length (keys emptyDict)) < MaxInt64 /\
  MakeKey sample_FormatFloat (VString "a") = Some (mkKey (Sum64a "a") "a") /\
  Get sample_FormatFloat
    (Some (Dict_Set sample_FormatFloat sample_DeepEqual (Some emptyDict)
             (VString "a") (VInt KInt 1)))
    (VString "a") None = Ok (VInt KInt 1).
Proof.
  split; [apply Inv_empty |]. split; [reflexivity |].
  split; [reflexivity |].
  apply Set_then_Get with (k := mkKey (Sum64a "a") "a");
    [apply Inv_empty | reflexivity | reflexivity].
Defined.

Lemma Version_changes_witness :
  Inv emptyDict /\
  - 2 ^ 63 <= version emptyDict < MaxInt64 /\
  Version (Dict_Set sample_FormatFloat sample_DeepEqual (Some emptyDict)
             (VString "a") (VInt KInt 1)) = 1 /\
  Clear (Some emptyDict) = (Some emptyDict, false).
Proof.
  assert (- 2 ^ 63 <= version emptyDict < MaxInt64) as Hv
    by (split; [vm_compute; discriminate | reflexivity]).
  split; [apply Inv_empty |]. split; [exact Hv |].
  destruct (Version_changes sample_FormatFloat sample_DeepEqual emptyDict
              (VString "a") (VInt KInt 1) (mkKey (Sum64a "a") "a")
              Inv_empty Hv eq_refl) as (Hset & _ & _ & Hclear).
  split; [exact Hset | exact Hclear].
Defined.

Lemma same_text_same_identity_witness :
  MakeKey sample_FormatFloat (VInt KInt 123)
    = Some (mkKey (Sum64a "123") "123") /\
  MakeKey sample_FormatFloat (VString "123")
    = Some (mkKey (Sum64a "123") "123") /\
  toString sample_FormatFloat (VInt KInt 123)
    = toString sample_FormatFloat (VString "123") /\
  Get sample_FormatFloat
    (Some (Dict_Set sample_FormatFloat sample_DeepEqual (Some emptyDict)
             (VInt KInt 123) (VBool true)))
    (VString "123") None = Ok (VBool true).
Proof.
  split; [reflexivity |]. split; [reflexivity |]. split; [reflexivity |].
  destruct (same_text_same_identity sample_FormatFloat sample_DeepEqual
              emptyDict (VInt KInt 123) (VString "123") (VBool true)
              (mkKey (Sum64a "123") "123") (mkKey (Sum64a "123") "123")
              None Inv_empty eq_refl eq_refl eq_refl eq_refl)
    as (_ & Hget & _).
  exact Hget.
Defined.

Lemma public_operations_keep_Inv_witness :
  Inv emptyDict /\
  exists s',
    exec sample_FormatFloat sample_DeepEqual
      (OpSet (VString "a") (VInt KInt 1)) (Some emptyDict) = Ok (Some s') /\
    (Z.of_nat (length (keys s')) <= MaxInt64 -> Inv s').
Proof.
  split; [apply Inv_empty |].
  apply (public_operations_keep_Inv sample_FormatFloat sample_DeepEqual
           (OpSet (VString "a") (VInt KInt 1)) emptyDict Inv_empty).
Defined.

Lemma positional_keys_witness :
  is_scalar (VInt KInt 7) = true /\
  Update_arg sample_FormatFloat sample_DeepEqual no_mem (fun _ => false)
    emptyDict (AVal (VInt KInt 7))
  = Dict_Set sample_FormatFloat sample_DeepEqual (Some emptyDict)
      (VInt KInt 0) (VInt KInt 7).
Proof.
  split; [reflexivity |].
  destruct (positional_keys sample_FormatFloat sample_DeepEqual no_mem
              (fun _ => false) emptyDict (VInt KInt 7) [] eq_refl)
    as (_ & _ & Hscalar & _).
  exact Hscalar.
Defined.


Lemma Items_empty_is_closed_witness :
  IsEmpty None = true /\ Items None = Some (mkChan [] true).
Proof.
  split; [reflexivity |].
  destruct (Items_empty_is_closed None eq_refl) as (Hitems & _).
  exact Hitems.
Defined.

Lemma one_entry_KeysWF :
  KeysWF (Dict_Set sample_FormatFloat sample_DeepEqual (Some emptyDict)
            (VString "a") (VInt KInt 1)).
Proof. apply Set_KeysWF. by constructor. Qed.

Lemma public_operations_keep_KeysWF_witness :
  KeysWF emptyDict /\
  exec sample_FormatFloat sample_DeepEqual
    (OpSet (VString "a") (VInt KInt 1)) (Some emptyDict)
  = Ok (Some (Dict_Set sample_FormatFloat sample_DeepEqual (Some emptyDict)
                (VString "a") (VInt KInt 1))) /\
  KeysWF (Dict_Set sample_FormatFloat sample_DeepEqual (Some emptyDict)
            (VString "a") (VInt KInt 1)).
Proof.
  assert (KeysWF emptyDict) as H0 by (by constructor).
  split; [exact H0 |]. split; [reflexivity |].
  exact (public_operations_keep_KeysWF sample_FormatFloat sample_DeepEqual
           (OpSet (VString "a") (VInt KInt 1)) emptyDict _ H0 eq_refl).
Defined.

Lemma Keys_Values_Get_witness :
  let d := Dict_Set sample_FormatFloat sample_DeepEqual (Some emptyDict)
             (VString "a") (VInt KInt 1) in
  Inv d /\ KeysWF d /\ IsEmpty (Some d) = false /\
  exists names vals,
    Keys (Some d) = Ok (Some names) /\ Values (Some d) = Ok (Some vals) /\
    length vals = length names.
Proof.
  intros d. split; [apply one_entry_Inv |].
  split; [apply one_entry_KeysWF |]. split; [reflexivity |].
  destruct (Keys_Values_Get sample_FormatFloat d one_entry_Inv
              one_entry_KeysWF eq_refl)
    as (names & vals & HK & HV & _ & HL & _).
  exists names, vals. split; [exact HK |]. split; [exact HV | exact HL].
Defined.

Lemma Del_removes_one_witness :
  let d := Dict_Set sample_FormatFloat sample_DeepEqual (Some emptyDict)
             (VString "a") (VInt KInt 1) in
  Inv d /\
  Dict_Key sample_FormatFloat (Some d) (VString "a") = true /\
  exists s',
    Del sample_FormatFloat (Some d) (VString "a") = Ok (Some s', true) /\
    Dict_Key sample_FormatFloat (Some s') (VString "a") = false.
Proof.
  intros d. split; [apply one_entry_Inv |]. split; [reflexivity |].
  pose proof (Del_removes_one sample_FormatFloat d (VString "a")
                one_entry_Inv) as H.
  change (Dict_Key sample_FormatFloat (Some d) (VString "a")) with true in H.
  destruct H as (s' & k & _ & HD & _ & _ & _ & HK).
  exists s'. split; [exact HD | exact HK].
Defined.

Lemma Set_touches_one_witness :
  Inv emptyDict /\
  Z.of_nat (length (keys emptyDict)) < MaxInt64 /\
  MakeKey sample_FormatFloat (VString "a") = Some (mkKey (Sum64a "a") "a") /\
  forall id,
    id <> Sum64a "a" ->
    values (Dict_Set sample_FormatFloat sample_DeepEqual (Some emptyDict)
              (VString "a") (VInt KInt 1)) !! id
    = values emptyDict !! id.
Proof.
  split; [apply Inv_empty |]. split; [reflexivity |].
  split; [reflexivity |].
  exact (proj1 (Set_touches_one sample_FormatFloat sample_DeepEqual
                  emptyDict (VString "a") (VInt KInt 1)
                  (mkKey (Sum64a "a") "a") Inv_empty eq_refl eq_refl)).
Defined.

Lemma Set_then_PopItem_witness :
  Inv emptyDict /\
  Z.of_nat (length (keys emptyDict)) < MaxInt64 /\
  MakeKey sample_FormatFloat (VString "a") = Some (mkKey (Sum64a "a") "a") /\
  Dict_Key sample_FormatFloat (Some emptyDict) (VString "a") = false /\
  exists s',
    PopItem (Some (Dict_Set sample_FormatFloat sample_DeepEqual
                     (Some emptyDict) (VString "a") (VInt KInt 1)))
    = Ok (Some s', Some (mkItem (VString "a") (VInt KInt 1))) /\
    keys s' = [] /\ values s' = ∅.
Proof.
  split; [apply Inv_empty |]. split; [reflexivity |].
  split; [reflexivity |]. split; [reflexivity |].
  destruct (Set_then_PopItem sample_FormatFloat sample_DeepEqual emptyDict
              (VString "a") (VInt KInt 1) (mkKey (Sum64a "a") "a")
              Inv_empty eq_refl eq_refl eq_refl)
    as (s' & HP & HK & HV & _).
  exists s'. split; [exact HP |]. split; [exact HK | exact HV].
Defined.

Lemma Set_then_Del_witness :
  Inv emptyDict /\
  Z.of_nat (length (keys emptyDict)) < MaxInt64 /\
  MakeKey sample_FormatFloat (VString "a") = Some (mkKey (Sum64a "a") "a") /\
  Dict_Key sample_FormatFloat (Some emptyDict) (VString "a") = false /\
  exists s',
    Del sample_FormatFloat
      (Some (Dict_Set sample_FormatFloat sample_DeepEqual
               (Some emptyDict) (VString "a") (VInt KInt 1)))
      (VString "a")
    = Ok (Some s', true) /\
    keys s' = [] /\ values s' = ∅.
Proof.
  split; [apply Inv_empty |]. split; [reflexivity |].
  split; [reflexivity |]. split; [reflexivity |].
  destruct (Set_then_Del sample_FormatFloat sample_DeepEqual emptyDict
              (VString "a") (VInt KInt 1) (mkKey (Sum64a "a") "a")
              Inv_empty eq_refl eq_refl eq_refl)
    as (s' & HD & HK & HV & _).
  exists s'. split; [exact HD |]. split; [exact HK | exact HV].
Defined.

Lemma PopItem_takes_last_witness :
  let d := Dict_Set sample_FormatFloat sample_DeepEqual (Some emptyDict)
             (VString "a") (VInt KInt 1) in
  Inv d /\
  exists s' item,
    PopItem (Some d) = Ok (Some s', Some item) /\
    snapshot d = snapshot s' ++ [item] /\
    Len s' = Len d - 1.
Proof.
  intros d. split; [apply one_entry_Inv |].
  exact (PopItem_takes_last d one_entry_Inv).
Defined.

Lemma Pop_member_witness :
  let d := Dict_Set sample_FormatFloat sample_DeepEqual (Some emptyDict)
             (VString "a") (VInt KInt 1) in
  Inv d /\
  MakeKey sample_FormatFloat (VString "a") = Some (mkKey (Sum64a "a") "a") /\
  values d !! Sum64a "a" = Some (VInt KInt 1) /\
  exists s',
    Pop sample_FormatFloat (Some d) (VString "a") None
    = Ok (Some s', VInt KInt 1).
Proof.
  intros d. split; [apply one_entry_Inv |]. split; [reflexivity |].
  split; [reflexivity |]. eexists.
  exact (Pop_member sample_FormatFloat d (VString "a")
           (mkKey (Sum64a "a") "a") (VInt KInt 1) None
           one_entry_Inv eq_refl eq_refl).
Defined.

Lemma Set_same_ID_witness :
  let d := Dict_Set sample_FormatFloat sample_DeepEqual (Some emptyDict)
             (VString "a") (VInt KInt 1) in
  let d' := Dict_Set sample_FormatFloat sample_DeepEqual (Some d)
              (VNamed (Some "a") (VInt KInt 5)) (VBool true) in
  Inv d /\
  MakeKey sample_FormatFloat (VString "a") = Some (mkKey (Sum64a "a") "a") /\
  MakeKey sample_FormatFloat (VNamed (Some "a") (VInt KInt 5))
    = Some (mkKey (Sum64a "a") "a") /\
  is_Some (values d !! Sum64a "a") /\
  keys d' = keys d /\
  Get sample_FormatFloat (Some d') (VString "a") None = Ok (VBool true).
Proof.
  intros d d'.
  assert (is_Some (values d !! Sum64a "a")) as Hsome
    by (exists (VInt KInt 1); reflexivity).
  split; [apply one_entry_Inv |]. split; [reflexivity |].
  split; [reflexivity |]. split; [exact Hsome |].
  destruct (Set_same_ID sample_FormatFloat sample_DeepEqual d
              (VString "a") (VNamed (Some "a") (VInt KInt 5)) (VBool true)
              (mkKey (Sum64a "a") "a") (mkKey (Sum64a "a") "a")
              one_entry_Inv eq_refl eq_refl eq_refl Hsome)
    as (HK & _ & HG).
  split; [exact HK | exact (proj1 (HG None))].
Defined.

Lemma Update_merges_witness :
  let d := Dict_Set sample_FormatFloat sample_DeepEqual (Some emptyDict)
             (VString "a") (VInt KInt 1) in
  Inv emptyDict /\ Inv d /\ KeysWF d /\
  Z.of_nat (length (keys emptyDict)) + Z.of_nat (length (keys d))
    <= MaxInt64 /\
  exists s' b,
    Update sample_FormatFloat sample_DeepEqual (fun _ => d) (fun _ => false)
      (Some emptyDict) (Some [ADict (Some 1%positive)])
    = Ok (Some s', b) /\
    values s' = values d ∪ values emptyDict.
Proof.
  intros d.
  assert (Z.of_nat (length (keys emptyDict)) + Z.of_nat (length (keys d))
          <= MaxInt64) as Hfit by (vm_compute; discriminate).
  split; [apply Inv_empty |]. split; [apply one_entry_Inv |].
  split; [apply one_entry_KeysWF |]. split; [exact Hfit |].
  destruct (Update_merges sample_FormatFloat sample_DeepEqual
              (fun _ => d) (fun _ => false) emptyDict 1%positive
              Inv_empty one_entry_Inv one_entry_KeysWF Hfit)
    as (s' & b & HU & _ & HV & _).
  exists s', b. split; [exact HU | exact HV].
Defined.

Lemma New_copies_witness :
  let d := Dict_Set sample_FormatFloat sample_DeepEqual (Some emptyDict)
             (VString "a") (VInt KInt 1) in
  Inv d /\ KeysWF d /\ Z.of_nat (length (keys d)) <= MaxInt64 /\
  keys (New sample_FormatFloat sample_DeepEqual (fun _ => d)
          (Some [ADict (Some 1%positive)])) = keys d /\
  values (New sample_FormatFloat sample_DeepEqual (fun _ => d)
            (Some [ADict (Some 1%positive)])) = values d.
Proof.
  intros d.
  assert (Z.of_nat (length (keys d)) <= MaxInt64) as Hfit
    by (vm_compute; discriminate).
  split; [apply one_entry_Inv |]. split; [apply one_entry_KeysWF |].
  split; [exact Hfit |].
  destruct (New_copies sample_FormatFloat sample_DeepEqual (fun _ => d)
              1%positive one_entry_Inv one_entry_KeysWF Hfit)
    as (HK & HV & _).
  split; [exact HK | exact HV].
Defined.

Lemma MarshalJSON_object_witness :
  let d := Dict_Set sample_FormatFloat sample_DeepEqual (Some emptyDict)
             (VString "a") (VInt KInt 1) in
  Inv d /\
  MarshalJSON sample_Marshal (Some d)
  = Ok (Some ("{" ++ dquote ++ "a" ++ dquote ++ ":1}")%string).
Proof.
  intros d. split; [apply one_entry_Inv |].
  rewrite (MarshalJSON_object sample_Marshal d one_entry_Inv).
  reflexivity.
Defined.

Lemma empty_container_answers_witness :
  IsEmpty (Some emptyDict) = true /\
  Del sample_FormatFloat (Some emptyDict) (VString "a")
    = Ok (Some emptyDict, false) /\
  Pop sample_FormatFloat (Some emptyDict) (VString "a")
    (Some [VString "default"])
    = Ok (Some emptyDict, VNil).
Proof.
  split; [reflexivity |].
  destruct (empty_container_answers sample_FormatFloat sample_Marshal
              (Some emptyDict) (VString "a") (Some [VString "default"])
              eq_refl)
    as (_ & HD & HP & _).
  split; [exact HD | exact HP].
Defined.

Lemma Update_only_adds_witness :
  let d := Dict_Set sample_FormatFloat sample_DeepEqual (Some emptyDict)
             (VString "a") (VInt KInt 1) in
  let d' := Dict_Set sample_FormatFloat sample_DeepEqual (Some d)
              (VInt KInt 1) (VInt KInt 7) in
  Update sample_FormatFloat sample_DeepEqual no_mem (fun _ => false)
    (Some d) (Some [AVal (VInt KInt 7)])
  = Ok (Some d', true) /\
  keys d `prefix_of` keys d'.
Proof.
  intros d d'. split; [reflexivity |].
  exact (proj1 (Update_only_adds sample_FormatFloat sample_DeepEqual no_mem
                  (fun _ => false) d d' (Some [AVal (VInt KInt 7)]) true
                  eq_refl)).
Defined.

Lemma Update_last_pair_wins_witness :
  let v := VMap (mkKeyType String false)
             [(VString "a", VInt KInt 1); (VString "b", VInt KInt 2)] in
  Inv emptyDict /\
  toIterable v
  = [] ++ mkItem (VString "a") (VInt KInt 1)
          :: [mkItem (VString "b") (VInt KInt 2)] /\
  MakeKey sample_FormatFloat (VString "a") = Some (mkKey (Sum64a "a") "a") /\
  Get sample_FormatFloat
    (Some (Update_arg sample_FormatFloat sample_DeepEqual no_mem
             (fun _ => false) emptyDict (AVal v)))
    (VString "a") None
  = Ok (VInt KInt 1).
Proof.
  intros v. split; [apply Inv_empty |]. split; [reflexivity |].
  split; [reflexivity |].
  destruct (Update_last_pair_wins sample_FormatFloat sample_DeepEqual no_mem
              (fun _ => false) emptyDict v (VString "a") (VInt KInt 1)
              [] [mkItem (VString "b") (VInt KInt 2)]
              (mkKey (Sum64a "a") "a") None)
    as (b & _ & HG).
  - apply Inv_empty.
  - reflexivity.
  - reflexivity.
  - reflexivity.
  - constructor; [| constructor]. split; [reflexivity |].
    intros k' Hk'.
    change (Some (mkKey (Sum64a "b") "b") = Some k') in Hk'.
    injection Hk' as <-. vm_compute. discriminate.
  - vm_compute. discriminate.
  - exact HG.
Defined.

Lemma Items_are_Keys_with_Values_witness :
  let d := Dict_Set sample_FormatFloat sample_DeepEqual (Some emptyDict)
             (VString "a") (VInt KInt 1) in
  Inv d /\ IsEmpty (Some d) = false /\
  exists names vals,
    Keys (Some d) = Ok (Some names) /\
    Values (Some d) = Ok (Some vals) /\
    range_chan (Items (Some d))
    = zip_with (fun name val => mkItem (VString name) val) names vals.
Proof.
  intros d. split; [apply one_entry_Inv |]. split; [reflexivity |].
  exact (Items_are_Keys_with_Values d one_entry_Inv eq_refl).
Defined.

Lemma MakeKey_result_witness :
  MakeKey sample_FormatFloat (VInt KInt 7) = Some (mkKey (Sum64a "7") "7") /\
  0 <= Sum64a "7" < 2 ^ 64.
Proof.
  split; [reflexivity |].
  destruct (MakeKey_result sample_FormatFloat (VInt KInt 7)
              (mkKey (Sum64a "7") "7") eq_refl)
    as (_ & _ & _ & _ & HR).
  exact HR.
Defined.
